(** * go-ahrs: the Mahony proportional-integral orientation filter

    A shallow embedding of [mahony.go] and of the reciprocal square root
    helper of package [ahrs].  The Go code works on [float64]; the two
    methods are written here once, over an interface of the arithmetic
    operations they use, and that interface is instantiated twice:

    - [B64]: IEEE 754 binary64, through the executable specification
      [SpecFloat] of the Standard Library (round to nearest even, signed
      zeros, infinities, NaN).  This is what the Go program computes, with
      every operation rounded on its own (no fused multiply-add, as on
      amd64).
    - [Exact]: the real numbers.  It serves one purpose, to say which
      mathematical function [invSqrt] rounds; every property of the two
      methods is proved for all instances or on [B64], and the error
      analysis of the normalisation relates [B64] values to the reals they
      stand for. *)

From Stdlib Require Import ZArith List Bool Reals Lra Psatz.
From Stdlib Require Import Floats.SpecFloat.
From Stdlib Require Import Arith Lia.
From Stdlib Require String Ascii.
Import ListNotations.

Set Implicit Arguments.

(** ** The arithmetic the code uses *)

Declare Scope ar_scope.
Delimit Scope ar_scope with ar.

Class Arith (F : Type) : Type := {
  f0 : F;                         (* the literal 0.0 *)
  f05 : F;                        (* the literal 0.5 *)
  f1 : F;                         (* the literal 1.0 *)
  f2 : F;                         (* the literal 2 / 2.0 *)
  fadd : F -> F -> F;
  fsub : F -> F -> F;
  fmul : F -> F -> F;
  fdiv : F -> F -> F;
  fneg : F -> F;
  fsqrt : F -> F;                 (* math.Sqrt *)
  feqb : F -> F -> bool;          (* == *)
  fltb : F -> F -> bool;          (* <  *)
  feqb_f0 : feqb f0 f0 = true
}.

Infix "+" := fadd : ar_scope.
Infix "-" := fsub : ar_scope.
Infix "*" := fmul : ar_scope.
Infix "/" := fdiv : ar_scope.
Notation "- x" := (fneg x) : ar_scope.
Infix "==" := feqb (at level 70, no associativity) : ar_scope.

(** ** The source, [mahony.go] and [invSqrt] *)

Section Source.

Context {F : Type} {A : Arith F}.

(* The operators of the section, on [F] with the instance given: the bodies
   below are long, and leaving the instance to be inferred at each operator
   makes their elaboration very slow. *)
Local Notation "x + y" := (@fadd F A x y).
Local Notation "x - y" := (@fsub F A x y).
Local Notation "x * y" := (@fmul F A x y).
Local Notation "x / y" := (@fdiv F A x y).
Local Notation "- x" := (@fneg F A x).
Local Notation "x == y" := (@feqb F A x y) (at level 70, no associativity).
Local Abbreviation f0 := (@f0 F A).
Local Abbreviation f05 := (@f05 F A).
Local Abbreviation f1 := (@f1 F A).
Local Abbreviation f2 := (@f2 F A).
Local Abbreviation fsqrt := (@fsqrt F A).
Local Abbreviation fltb := (@fltb F A).

(** A Go [[4]float64], a value (copied on assignment and on return). *)
Definition quat : Type := prod (prod (prod F F) F) F.

(** [type Mahony struct] *)
Record Mahony : Type := mkMahony {
  twoKp : F;
  twoKi : F;
  integralFBx : F;
  integralFBy : F;
  integralFBz : F;
  SampleFreq : F;
  Quaternions : quat
}.

(** [m.Quaternions[0..3] = ...], the only assignments to a field of [m] in
    the package. *)
Definition set_Quaternions (m : Mahony) (q : quat) : Mahony :=
  {| twoKp := twoKp m; twoKi := twoKi m;
     integralFBx := integralFBx m; integralFBy := integralFBy m;
     integralFBz := integralFBz m;
     SampleFreq := SampleFreq m; Quaternions := q |}.

(** [func invSqrt(x float64) float64 { return 1 / math.Sqrt(x) }] *)
Definition invSqrt (x : F) : F := f1 / fsqrt x.

(** [func NewMahony(kp, ki, sampleFreq float64) Mahony]; the fields the
    literal leaves out take Go's zero value. *)
Definition NewMahony (kp ki sampleFreq : F) : Mahony :=
  {| twoKp := f2 * kp; twoKi := f2 * ki;
     integralFBx := f0; integralFBy := f0; integralFBz := f0;
     SampleFreq := sampleFreq; Quaternions := (f1, f0, f0, f0) |}.

(** [func (m *Mahony) Update6D(gx, gy, gz, ax, ay, az float64) [4]float64].
    The result is the receiver after the call and the returned array.  Each
    rebinding of a name is an assignment of the source, in its order; the
    local variables end with the call, and the receiver is assigned in the
    last lines only. *)
Definition Update6D (m : Mahony) (gx gy gz ax ay az : F) : Mahony * quat :=
  let '(q0, q1, q2, q3) := Quaternions m in
  let integralFBx := integralFBx m in
  let integralFBy := integralFBy m in
  let integralFBz := integralFBz m in
  let twoKi := twoKi m in
  let twoKp := twoKp m in
  let sampleFreq := SampleFreq m in
  let '(gx, gy, gz) :=
    if negb ((ax == f0) && (ay == f0) && (az == f0)) then
      let recipNorm := invSqrt (ax*ax + ay*ay + az*az) in
      let ax := ax * recipNorm in
      let ay := ay * recipNorm in
      let az := az * recipNorm in
      let halfvx := q1*q3 - q0*q2 in
      let halfvy := q0*q1 + q2*q3 in
      let halfvz := q0*q0 - f05 + q3*q3 in
      let halfex := ay*halfvz - az*halfvy in
      let halfey := az*halfvx - ax*halfvz in
      let halfez := ax*halfvy - ay*halfvx in
      let '(gx, gy, gz) :=
        if fltb f0 twoKi then
          let integralFBx := integralFBx + twoKi * halfex * (f1 / sampleFreq) in
          let integralFBy := integralFBy + twoKi * halfey * (f1 / sampleFreq) in
          let integralFBz := integralFBz + twoKi * halfez * (f1 / sampleFreq) in
          (gx + integralFBx, gy + integralFBy, gz + integralFBz)
        else
          let integralFBx := f0 in
          let integralFBy := f0 in
          let integralFBz := f0 in
          (gx, gy, gz) in
      (gx + twoKp * halfex, gy + twoKp * halfey, gz + twoKp * halfez)
    else (gx, gy, gz) in
  let gx := gx * (f05 * (f1 / sampleFreq)) in
  let gy := gy * (f05 * (f1 / sampleFreq)) in
  let gz := gz * (f05 * (f1 / sampleFreq)) in
  let qa := q0 in
  let qb := q1 in
  let qc := q2 in
  let q0 := q0 + (-qb*gx - qc*gy - q3*gz) in
  let q1 := q1 + (qa*gx + qc*gz - q3*gy) in
  let q2 := q2 + (qa*gy - qb*gz + q3*gx) in
  let q3 := q3 + (qa*gz + qb*gy - qc*gx) in
  let recipNorm := invSqrt (q0*q0 + q1*q1 + q2*q2 + q3*q3) in
  let m' := set_Quaternions m
              (q0 * recipNorm, q1 * recipNorm, q2 * recipNorm, q3 * recipNorm) in
  (m', Quaternions m').

(** [func (m *Mahony) Update9D(gx, gy, gz, ax, ay, az, mx, my, mz float64)
    [4]float64] *)
Definition Update9D (m : Mahony) (gx gy gz ax ay az mx my mz : F)
  : Mahony * quat :=
  let '(q0, q1, q2, q3) := Quaternions m in
  let integralFBx := integralFBx m in
  let integralFBy := integralFBy m in
  let integralFBz := integralFBz m in
  let twoKi := twoKi m in
  let twoKp := twoKp m in
  let sampleFreq := SampleFreq m in
  let '(gx, gy, gz) :=
    if negb ((ax == f0) && (ay == f0) && (az == f0)) then
      let recipNorm := invSqrt (ax*ax + ay*ay + az*az) in
      let ax := ax * recipNorm in
      let ay := ay * recipNorm in
      let az := az * recipNorm in
      let recipNorm := invSqrt (mx*mx + my*my + mz*mz) in
      let mx := mx * recipNorm in
      let my := my * recipNorm in
      let mz := mz * recipNorm in
      let q0q0 := q0 * q0 in
      let q0q1 := q0 * q1 in
      let q0q2 := q0 * q2 in
      let q0q3 := q0 * q3 in
      let q1q1 := q1 * q1 in
      let q1q2 := q1 * q2 in
      let q1q3 := q1 * q3 in
      let q2q2 := q2 * q2 in
      let q2q3 := q2 * q3 in
      let q3q3 := q3 * q3 in
      let hx := f2 * (mx*(f05-q2q2-q3q3) + my*(q1q2-q0q3) + mz*(q1q3+q0q2)) in
      let hy := f2 * (mx*(q1q2+q0q3) + my*(f05-q1q1-q3q3) + mz*(q2q3-q0q1)) in
      let bx := fsqrt (hx*hx + hy*hy) in
      let bz := f2 * (mx*(q1q3-q0q2) + my*(q2q3+q0q1) + mz*(f05-q1q1-q2q2)) in
      let halfvx := q1q3 - q0q2 in
      let halfvy := q0q1 + q2q3 in
      let halfvz := q0q0 - f05 + q3q3 in
      let halfwx := bx*(f05-q2q2-q3q3) + bz*(q1q3-q0q2) in
      let halfwy := bx*(q1q2-q0q3) + bz*(q0q1+q2q3) in
      let halfwz := bx*(q0q2+q1q3) + bz*(f05-q1q1-q2q2) in
      let halfex := (ay*halfvz - az*halfvy) + (my*halfwz - mz*halfwy) in
      let halfey := (az*halfvx - ax*halfvz) + (mz*halfwx - mx*halfwz) in
      let halfez := (ax*halfvy - ay*halfvx) + (mx*halfwy - my*halfwx) in
      let '(gx, gy, gz) :=
        if fltb f0 twoKi then
          let integralFBx := integralFBx + twoKi * halfex * (f1 / sampleFreq) in
          let integralFBy := integralFBy + twoKi * halfey * (f1 / sampleFreq) in
          let integralFBz := integralFBz + twoKi * halfez * (f1 / sampleFreq) in
          (gx + integralFBx, gy + integralFBy, gz + integralFBz)
        else
          let integralFBx := f0 in
          let integralFBy := f0 in
          let integralFBz := f0 in
          (gx, gy, gz) in
      (gx + twoKp * halfex, gy + twoKp * halfey, gz + twoKp * halfez)
    else (gx, gy, gz) in
  let gx := gx * (f05 * (f1 / sampleFreq)) in
  let gy := gy * (f05 * (f1 / sampleFreq)) in
  let gz := gz * (f05 * (f1 / sampleFreq)) in
  let qa := q0 in
  let qb := q1 in
  let qc := q2 in
  let q0 := q0 + (-qb*gx - qc*gy - q3*gz) in
  let q1 := q1 + (qa*gx + qc*gz - q3*gy) in
  let q2 := q2 + (qa*gy - qb*gz + q3*gx) in
  let q3 := q3 + (qa*gz + qb*gy - qc*gx) in
  let recipNorm := invSqrt (q0*q0 + q1*q1 + q2*q2 + q3*q3) in
  let m' := set_Quaternions m
              (q0 * recipNorm, q1 * recipNorm, q2 * recipNorm, q3 * recipNorm) in
  (m', Quaternions m').

End Source.

Arguments quat F : clear implicits.
Arguments Mahony F : clear implicits.

(** ** The update as the steps of the algorithm

    The same computation cut at the comments of the source: validity guard,
    normalisation, estimated directions, error, feedback, integration,
    normalisation.  [Update6D_steps] and [Update9D_steps] below show that the
    methods are the composition of these steps. *)

Section Steps.

Context {F : Type} {A : Arith F}.

(* The operators of the section, on [F] with the instance given: the bodies
   below are long, and leaving the instance to be inferred at each operator
   makes their elaboration very slow. *)
Local Notation "x + y" := (@fadd F A x y).
Local Notation "x - y" := (@fsub F A x y).
Local Notation "x * y" := (@fmul F A x y).
Local Notation "x / y" := (@fdiv F A x y).
Local Notation "- x" := (@fneg F A x).
Local Notation "x == y" := (@feqb F A x y) (at level 70, no associativity).
Local Abbreviation f0 := (@f0 F A).
Local Abbreviation f05 := (@f05 F A).
Local Abbreviation f1 := (@f1 F A).
Local Abbreviation f2 := (@f2 F A).
Local Abbreviation fsqrt := (@fsqrt F A).
Local Abbreviation fltb := (@fltb F A).

Definition vec3 : Type := prod (prod F F) F.

(** The guard [!(ax == 0.0 && ay == 0.0 && az == 0.0)]. *)
Definition accel_valid (a : vec3) : bool :=
  let '(ax, ay, az) := a in
  negb ((ax == f0) && (ay == f0) && (az == f0)).

(** "Normalise accelerometer measurement", "Normalise magnetometer
    measurement". *)
Definition normalise3 (v : vec3) : vec3 :=
  let '(x, y, z) := v in
  let recipNorm := invSqrt (x*x + y*y + z*z) in
  (x * recipNorm, y * recipNorm, z * recipNorm).

(** "Estimated direction of gravity": [halfvx, halfvy, halfvz]. *)
Definition half_v (q : quat F) : vec3 :=
  let '(q0, q1, q2, q3) := q in
  (q1*q3 - q0*q2, q0*q1 + q2*q3, q0*q0 - f05 + q3*q3).

(** "Reference direction of Earth's magnetic field" and the estimated
    direction of the magnetic field: [halfwx, halfwy, halfwz] of
    [Update9D], from the normalised magnetometer reading. *)
Definition half_w (q : quat F) (mg : vec3) : vec3 :=
  let '(q0, q1, q2, q3) := q in
  let '(mx, my, mz) := mg in
  let hx := f2 * (mx*(f05-q2*q2-q3*q3) + my*(q1*q2-q0*q3) + mz*(q1*q3+q0*q2)) in
  let hy := f2 * (mx*(q1*q2+q0*q3) + my*(f05-q1*q1-q3*q3) + mz*(q2*q3-q0*q1)) in
  let bx := fsqrt (hx*hx + hy*hy) in
  let bz := f2 * (mx*(q1*q3-q0*q2) + my*(q2*q3+q0*q1) + mz*(f05-q1*q1-q2*q2)) in
  (bx*(f05-q2*q2-q3*q3) + bz*(q1*q3-q0*q2),
   bx*(q1*q2-q0*q3) + bz*(q0*q1+q2*q3),
   bx*(q0*q2+q1*q3) + bz*(f05-q1*q1-q2*q2)).

(** The error of [Update6D]: cross product of the normalised measured and
    the estimated direction of gravity. *)
Definition half_e6 (q : quat F) (a : vec3) : vec3 :=
  let '(ax, ay, az) := normalise3 a in
  let '(halfvx, halfvy, halfvz) := half_v q in
  (ay*halfvz - az*halfvy, az*halfvx - ax*halfvz, ax*halfvy - ay*halfvx).

(** The error of [Update9D]: sum of the cross products for gravity and for
    the magnetic field. *)
Definition half_e9 (q : quat F) (a mg : vec3) : vec3 :=
  let '(ax, ay, az) := normalise3 a in
  let '(mx, my, mz) := normalise3 mg in
  let '(halfvx, halfvy, halfvz) := half_v q in
  let '(halfwx, halfwy, halfwz) := half_w q (mx, my, mz) in
  ((ay*halfvz - az*halfvy) + (my*halfwz - mz*halfwy),
   (az*halfvx - ax*halfvz) + (mz*halfwx - mx*halfwz),
   (ax*halfvy - ay*halfvx) + (mx*halfwy - my*halfwx)).

(** The accumulator fields of the receiver. *)
Definition integralFB (m : Mahony F) : vec3 :=
  (integralFBx m, integralFBy m, integralFBz m).

(** "integral error scaled by Ki": the accumulator fields plus
    [twoKi * half_e * (1 / sampleFreq)], componentwise. *)
Definition accumulated (m : Mahony F) (e : vec3) : vec3 :=
  let '(halfex, halfey, halfez) := e in
  (integralFBx m + twoKi m * halfex * (f1 / SampleFreq m),
   integralFBy m + twoKi m * halfey * (f1 / SampleFreq m),
   integralFBz m + twoKi m * halfez * (f1 / SampleFreq m)).

(** The value of the local variables [integralFBx, integralFBy,
    integralFBz] after "Compute and apply integral feedback if enabled". *)
Definition local_integral (m : Mahony F) (e : vec3) : vec3 :=
  if fltb f0 (twoKi m) then accumulated m e else (f0, f0, f0).

(** The angular rate after integral and proportional feedback. *)
Definition pi_feedback (m : Mahony F) (g e : vec3) : vec3 :=
  let '(gx, gy, gz) := g in
  let '(halfex, halfey, halfez) := e in
  let '(ix, iy, iz) := local_integral m e in
  let '(gx, gy, gz) :=
    if fltb f0 (twoKi m) then (gx + ix, gy + iy, gz + iz) else (gx, gy, gz) in
  (gx + twoKp m * halfex, gy + twoKp m * halfey, gz + twoKp m * halfez).

(** [(gx, gy, gz)] where "Integrate rate of change of quaternion" starts. *)
Definition corrected_rate6 (m : Mahony F) (g a : vec3) : vec3 :=
  if accel_valid a then pi_feedback m g (half_e6 (Quaternions m) a) else g.

Definition corrected_rate9 (m : Mahony F) (g a mg : vec3) : vec3 :=
  if accel_valid a then pi_feedback m g (half_e9 (Quaternions m) a mg) else g.

(** "pre-multiply common factors" *)
Definition scale_rate (sampleFreq : F) (g : vec3) : vec3 :=
  let '(gx, gy, gz) := g in
  (gx * (f05 * (f1 / sampleFreq)),
   gy * (f05 * (f1 / sampleFreq)),
   gz * (f05 * (f1 / sampleFreq))).

(** First-order step of the quaternion derivative, [q + q (x) (0, g)],
    componentwise, every right-hand side on the components of [q]. *)
Definition quat_derivative_step (q : quat F) (g : vec3) : quat F :=
  let '(q0, q1, q2, q3) := q in
  let '(gx, gy, gz) := g in
  (q0 + (-q1*gx - q2*gy - q3*gz),
   q1 + (q0*gx + q2*gz - q3*gy),
   q2 + (q0*gy - q1*gz + q3*gx),
   q3 + (q0*gz + q1*gy - q2*gx)).

Definition norm2 (q : quat F) : F :=
  let '(q0, q1, q2, q3) := q in q0*q0 + q1*q1 + q2*q2 + q3*q3.

(** "Normalise quaternion" *)
Definition normalise_quat (q : quat F) : quat F :=
  let '(q0, q1, q2, q3) := q in
  let recipNorm := invSqrt (norm2 q) in
  (q0 * recipNorm, q1 * recipNorm, q2 * recipNorm, q3 * recipNorm).

(** Integration of a rate from the stored quaternion: scaling, derivative
    step, normalisation.  With the raw gyroscope rate this is the pure
    gyro-integration result. *)
Definition integrate_rate (m : Mahony F) (g : vec3) : quat F :=
  normalise_quat
    (quat_derivative_step (Quaternions m) (scale_rate (SampleFreq m) g)).

(** ** Sequences of calls on one receiver *)

Inductive call : Type :=
| Call6D (gx gy gz ax ay az : F)
| Call9D (gx gy gz ax ay az mx my mz : F).

Definition do_call (m : Mahony F) (c : call) : Mahony F :=
  match c with
  | Call6D gx gy gz ax ay az => fst (Update6D m gx gy gz ax ay az)
  | Call9D gx gy gz ax ay az mx my mz =>
      fst (Update9D m gx gy gz ax ay az mx my mz)
  end.

Definition run (m : Mahony F) (cs : list call) : Mahony F :=
  fold_left do_call cs m.

(** A call with the pair it returns: the receiver after the call and the
    returned array. *)
Definition update (m : Mahony F) (c : call) : Mahony F * quat F :=
  match c with
  | Call6D gx gy gz ax ay az => Update6D m gx gy gz ax ay az
  | Call9D gx gy gz ax ay az mx my mz =>
      Update9D m gx gy gz ax ay az mx my mz
  end.

(** The quaternion of a call after "Integrate rate of change of
    quaternion", where "Normalise quaternion" starts. *)
Definition integrated (m : Mahony F) (c : call) : quat F :=
  let g :=
    match c with
    | Call6D gx gy gz ax ay az => corrected_rate6 m (gx, gy, gz) (ax, ay, az)
    | Call9D gx gy gz ax ay az mx my mz =>
        corrected_rate9 m (gx, gy, gz) (ax, ay, az) (mx, my, mz)
    end in
  quat_derivative_step (Quaternions m) (scale_rate (SampleFreq m) g).

(** The states a program can hold: the unexported fields are set by the
    constructor only, the exported ones ([SampleFreq], [Quaternions]) can be
    assigned by any client, and the methods do the rest. *)
Inductive reachable : Mahony F -> Prop :=
| reach_new kp ki sampleFreq : reachable (NewMahony kp ki sampleFreq)
| reach_set_freq m sampleFreq :
    reachable m ->
    reachable {| twoKp := twoKp m; twoKi := twoKi m;
                 integralFBx := integralFBx m; integralFBy := integralFBy m;
                 integralFBz := integralFBz m;
                 SampleFreq := sampleFreq; Quaternions := Quaternions m |}
| reach_set_quat m q : reachable m -> reachable (set_Quaternions m q)
| reach_call m c : reachable m -> reachable (do_call m c).

End Steps.

Arguments vec3 F : clear implicits.
Arguments call F : clear implicits.

(** ** The test file, [ahrs_test.go]: loader and drivers

    [strings.Split] and [fmt.Sscanf] belong to Go's standard library.  The
    first is written out for the separator of [readCSV], after its
    documentation; the second, applied to the format of [readCSV] with its
    error dropped as the source drops it, is a parameter. *)

(** The byte ["\n"]. *)
Definition newline : Ascii.ascii := Ascii.ascii_of_nat 10.

(** [strings.Split(s, "\n")]: the substrings between the separators, one
    more than there are separators. *)
Fixpoint Split_nl (s : String.string) : list String.string :=
  match s with
  | String.EmptyString => [String.EmptyString]
  | String.String c s' =>
      if Ascii.eqb c newline then String.EmptyString :: Split_nl s'
      else match Split_nl s' with
           | h :: t => String.String c h :: t
           | [] => [String.String c String.EmptyString]
           end
  end.

(** Number of ["\n"] bytes of a string. *)
Fixpoint count_nl (s : String.string) : nat :=
  match s with
  | String.EmptyString => 0
  | String.String c s' => (if Ascii.eqb c newline then 1 else 0) + count_nl s'
  end.

(** A line: a string without ["\n"]. *)
Definition is_line (s : String.string) : Prop := count_nl s = 0.

(** [header + "\n" + row1 + "\n" + ... + rown + "\n"] and the same text
    without the last ["\n"]. *)
Fixpoint terminated (rows : list String.string) : String.string :=
  match rows with
  | [] => String.EmptyString
  | r :: rs =>
      String.append r (String.String newline (terminated rs))
  end.

Fixpoint separated (rows : list String.string) : String.string :=
  match rows with
  | [] => String.EmptyString
  | r :: rs =>
      String.String newline (String.append r (separated rs))
  end.

Definition nonempty (s : String.string) : bool :=
  negb (String.eqb s String.EmptyString).

Section Clients.

Context {F : Type} {A : Arith F}.

(** [type dataLine struct]; a [[3]float64] is a [vec3], read by index. *)
Record dataLine : Type := mkDataLine {
  time : F;
  acce : vec3 F;
  gyro : vec3 F;
  magn : vec3 F
}.

Definition at0 (v : vec3 F) : F := fst (fst v).
Definition at1 (v : vec3 F) : F := snd (fst v).
Definition at2 (v : vec3 F) : F := snd v.

(** What [ioutil.ReadFile] gives back, and what [readCSV] does. *)
Variable error : Type.

Inductive file_read : Type :=
| FileBytes (data : String.string)
| FileError (err : error).

Inductive readCSV_result : Type :=
| CSV_records (result : list dataLine)      (* return result, nil *)
| CSV_error (err : error)                   (* return nil, err *)
| CSV_panic.                                (* slice bounds out of range *)

(** [fmt.Sscanf(line, "%f;%f;%f;%f;%f;%f;%f;%f;%f;%f", &value.time, ...)]
    on a fresh [value], its error not looked at. *)
Variable Sscanf_dataLine : String.string -> dataLine.

(** The body of [for _, line := range ...], [result] threaded through. *)
Fixpoint readCSV_loop (lines : list String.string) (result : list dataLine)
  : list dataLine :=
  match lines with
  | [] => result
  | line :: rest =>
      if String.eqb line String.EmptyString
      then readCSV_loop rest result                                (* continue *)
      else readCSV_loop rest (result ++ [Sscanf_dataLine line])    (* append *)
  end.

(** [func readCSV(fileName string) ([]dataLine, error)], from the outcome of
    reading the file on. *)
Definition readCSV (file : file_read) : readCSV_result :=
  match file with
  | FileError err => CSV_error err
  | FileBytes data =>
      match Split_nl data with
      | [] => CSV_panic                                  (* [1:] of no element *)
      | _ :: lines => CSV_records (readCSV_loop lines [])
      end
  end.

(** The call [TestAHRS] and [BenchmarkMahony] make on the Mahony filter for
    a record [d]: index 1 of each array is passed twice, index 2 and [time]
    are not passed. *)
Definition driver_call (d : dataLine) : call F :=
  Call9D (at0 (gyro d)) (at1 (gyro d)) (at1 (gyro d))
         (at0 (acce d)) (at1 (acce d)) (at1 (acce d))
         (at0 (magn d)) (at1 (magn d)) (at1 (magn d)).

(** The loop of [TestAHRS] on its Mahony filter: the quaternions
    [mahony.Update9D] returns, in order, and the filter at the end. *)
Fixpoint TestAHRS_mahony (mahony : Mahony F) (data : list dataLine)
  : Mahony F * list (quat F) :=
  match data with
  | [] => (mahony, [])
  | d :: rest =>
      let '(mahony, q) :=
        Update9D mahony (at0 (gyro d)) (at1 (gyro d)) (at1 (gyro d))
                        (at0 (acce d)) (at1 (acce d)) (at1 (acce d))
                        (at0 (magn d)) (at1 (magn d)) (at1 (magn d)) in
      let '(mahony, qs) := TestAHRS_mahony mahony rest in
      (mahony, q :: qs)
  end.

(** The loop of [BenchmarkMahony], [for i := 0; i < b.N; i++], from index
    [i] with [n] iterations to go; [None] is a run-time panic ([i % l] with
    [l = 0], or an index out of range). *)
Fixpoint BenchmarkMahony_loop (data : list dataLine) (l : nat)
  (mahony : Mahony F) (i n : nat) : option (Mahony F) :=
  match n with
  | O => Some mahony
  | S n' =>
      match l with
      | O => None
      | S _ =>
          match nth_error data (i mod l) with
          | None => None
          | Some d =>
              BenchmarkMahony_loop data l
                (fst (Update9D mahony
                        (at0 (gyro d)) (at1 (gyro d)) (at1 (gyro d))
                        (at0 (acce d)) (at1 (acce d)) (at1 (acce d))
                        (at0 (magn d)) (at1 (magn d)) (at1 (magn d))))
                (S i) n'
          end
      end
  end.

(** How a run of [BenchmarkMahony] ends. *)
Inductive benchmark_result : Type :=
| Bench_done (mahony : Mahony F)       (* the loop ran to its end *)
| Bench_failed (err : error)           (* require.NoError stopped the run *)
| Bench_panic.                         (* run-time panic *)

(** [func BenchmarkMahony(b *testing.B)], from the outcome of [readCSV] on,
    for [b.N = N]: [l := len(data)], [require.NoError(b, err)], which ends
    the run when the read failed, then the loop.  [mahony] is the value of
    [ahrs.NewDefaultMahony(100)]. *)
Definition BenchmarkMahony (mahony : Mahony F) (read : readCSV_result)
  (N : nat) : benchmark_result :=
  match read with
  | CSV_panic => Bench_panic
  | CSV_error err => Bench_failed err
  | CSV_records data =>
      let l := length data in
      match BenchmarkMahony_loop data l mahony 0 N with
      | Some mahony => Bench_done mahony
      | None => Bench_panic
      end
  end.

(** Two records with the same values at the indices the drivers read. *)
Definition same_xy (d d' : dataLine) : Prop :=
  at0 (gyro d) = at0 (gyro d') /\ at1 (gyro d) = at1 (gyro d') /\
  at0 (acce d) = at0 (acce d') /\ at1 (acce d) = at1 (acce d') /\
  at0 (magn d) = at0 (magn d') /\ at1 (magn d) = at1 (magn d').

(** The record [BenchmarkMahony] reads at iteration [i]. *)
Definition cycled (data : list dataLine) (d0 : dataLine) (i : nat) : dataLine :=
  nth (i mod length data) data d0.

End Clients.

Arguments dataLine F : clear implicits.
Arguments file_read : clear implicits.
Arguments readCSV_result F error : clear implicits.
Arguments benchmark_result F error : clear implicits.

(** ** The two arithmetics *)

Module B64.

(** IEEE 754 binary64: 53 bits of precision, infinities at exponent 1024. *)
Definition prec : Z := 53.
Definition emax : Z := 1024.
Definition t : Type := spec_float.

Definition of_Z (z : Z) : t := binary_normalize prec emax z 0 false.
Definition div (x y : t) : t := SFdiv prec emax x y.

(** The [float64] nearest to the decimal [n / d]: the division is
    correctly rounded and small integers are exact. *)
Definition dec (n d : Z) : t := div (of_Z n) (of_Z d).

Definition zero : t := S754_zero false.
Definition one : t := Eval vm_compute in of_Z 1.
Definition half : t := Eval vm_compute in dec 1 2.
Definition two : t := Eval vm_compute in of_Z 2.
Definition nan : t := S754_nan.
Definition pinf : t := S754_infinity false.

Lemma b64_eqb_zero : SFeqb zero zero = true.
Proof. reflexivity. Qed.

#[global] Instance arith : Arith t := {|
  f0 := zero; f05 := half; f1 := one; f2 := two;
  fadd := SFadd prec emax; fsub := SFsub prec emax;
  fmul := SFmul prec emax; fdiv := div;
  fneg := SFopp; fsqrt := SFsqrt prec emax;
  feqb := SFeqb; fltb := SFltb;
  feqb_f0 := b64_eqb_zero |}.

(** [|x - y| <= eps], false when either side is NaN. *)
Definition within (eps x y : t) : bool :=
  SFleb (SFabs (SFsub prec emax x y)) eps.

(** The tolerance 1e-9 of the unit-norm property. *)
Definition tol : t := dec 1 (10 ^ 9).

(** [NewMahony(0.2, 0.1, 100)]: the default gains at 100 Hz. *)
Definition m_default : Mahony t :=
  NewMahony (dec 2 10) (dec 1 10) (of_Z 100).

(** The same filter after a client has assigned the zero array to the
    exported field [Quaternions]. *)
Definition m_zero_quat : Mahony t :=
  set_Quaternions m_default (zero, zero, zero, zero).

(** [const ( MahonyDefaultKp = 0.2; MahonyDefaultKi = 0.1 )], as [float64]. *)
Definition MahonyDefaultKp : t := dec 2 10.
Definition MahonyDefaultKi : t := dec 1 10.

(** [func NewDefaultMahony(sampleFreq float64) Mahony].  [2 *
    MahonyDefaultKp] and [2 * MahonyDefaultKi] are constant expressions: Go
    evaluates them exactly, to 0.4 and 0.2, and rounds once when they are
    stored in the [float64] fields. *)
Definition NewDefaultMahony (sampleFreq : t) : Mahony t :=
  {| twoKp := dec 4 10; twoKi := dec 2 10;
     integralFBx := zero; integralFBy := zero; integralFBz := zero;
     SampleFreq := sampleFreq; Quaternions := (one, zero, zero, zero) |}.

(** Classes of values the edge cases go through. *)
Definition is_nan (x : t) : bool :=
  match x with S754_nan => true | _ => false end.

Definition is_zero (x : t) : bool :=
  match x with S754_zero _ => true | _ => false end.

Definition is_negative (x : t) : bool :=
  match x with
  | S754_finite true _ _ | S754_infinity true => true
  | _ => false
  end.

Definition inf_or_nan (x : t) : bool :=
  match x with S754_infinity _ | S754_nan => true | _ => false end.

Definition pinf_or_nan (x : t) : bool :=
  match x with S754_infinity false | S754_nan => true | _ => false end.

Definition zero_or_nan (x : t) : bool :=
  match x with S754_zero _ | S754_nan => true | _ => false end.

Definition has_nan3 (v : vec3 t) : bool :=
  let '(x, y, z) := v in is_nan x || is_nan y || is_nan z.

Definition has_nan4 (q : quat t) : bool :=
  let '(q0, q1, q2, q3) := q in
  is_nan q0 || is_nan q1 || is_nan q2 || is_nan q3.

Definition nan4 : quat t := (nan, nan, nan, nan).

Definition inf_or_nan3 (v : vec3 t) : bool :=
  let '(x, y, z) := v in inf_or_nan x && inf_or_nan y && inf_or_nan z.

(** The sum of squares the normalisations take the root of. *)
Definition sum_squares (v : vec3 t) : t :=
  let '(x, y, z) := v in
  SFadd prec emax
    (SFadd prec emax (SFmul prec emax x x) (SFmul prec emax y y))
    (SFmul prec emax z z).

(** A finite value: a zero or a finite number, neither infinite nor NaN. *)
Definition regular (x : t) : bool :=
  match x with S754_zero _ | S754_finite _ _ _ => true | _ => false end.

(** A [float64] value: [spec_float] also holds mantissa and exponent pairs
    that are not the canonical binary64 representation of a number. *)
Definition valid (x : t) : bool := valid_binary prec emax x.

Definition valid4 (q : quat t) : bool :=
  let '(q0, q1, q2, q3) := q in valid q0 && valid q1 && valid q2 && valid q3.

Definition zero3 (v : vec3 t) : bool :=
  let '(x, y, z) := v in is_zero x && is_zero y && is_zero z.

(** Go's [==] on [[4]float64]: componentwise, with [-0 == +0]. *)
Definition quat_eqb (p q : quat t) : bool :=
  let '(p0, p1, p2, p3) := p in
  let '(q0, q1, q2, q3) := q in
  SFeqb p0 q0 && SFeqb p1 q1 && SFeqb p2 q2 && SFeqb p3 q3.

(** [2^-600]: its square is below the smallest positive [float64]. *)
Definition tiny : t := S754_finite false 4503599627370496 (-652).

(** The real number a mantissa and exponent pair stands for. *)
Definition F2R (m e : Z) : R := (IZR m * powerRZ 2 e)%R.

(** The real value of a [float64], 0 for what is not a number, and its
    absolute value. *)
Definition B2R (x : t) : R :=
  match x with
  | S754_finite s m e => F2R (cond_Zopp s (Z.pos m)) e
  | _ => 0%R
  end.

Definition mag (x : t) : R :=
  match x with S754_finite _ m e => F2R (Z.pos m) e | _ => 0%R end.

(** The squared norm of the stored numbers, in the reals. *)
Definition norm2_R (q : quat t) : R :=
  let '(q0, q1, q2, q3) := q in
  (B2R q0 * B2R q0 + B2R q1 * B2R q1 + B2R q2 * B2R q2 + B2R q3 * B2R q3)%R.

Definition sign_of (x : t) : bool :=
  match x with
  | S754_finite s _ _ | S754_zero s | S754_infinity s => s
  | S754_nan => false
  end.

(** A normal number (53 significant bits) with its exponent in a range. *)
Definition normal_in (lo hi : Z) (x : t) : Prop :=
  match x with
  | S754_finite _ m e => Z.pos (digits2_pos m) = 53%Z /\ (lo <= e <= hi)%Z
  | _ => False
  end.

(** [+0] or a positive normal number. *)
Definition pn (lo hi : Z) (x : t) : Prop :=
  x = S754_zero false \/ (normal_in lo hi x /\ sign_of x = false).

(** A zero, or a normal number of magnitude in [[2^-400, 2^400)]: squares,
    sums of four squares, their root and its reciprocal stay normal. *)
Definition moderate (x : t) : bool :=
  match x with
  | S754_zero _ => true
  | S754_finite _ m e =>
      (Z.pos (digits2_pos m) =? 53)%Z && (-452 <=? e)%Z && (e <=? 347)%Z
  | _ => false
  end.

Definition regular4 (q : quat t) : bool :=
  let '(q0, q1, q2, q3) := q in
  regular q0 && regular q1 && regular q2 && regular q3.

Definition moderate4 (q : quat t) : bool :=
  let '(q0, q1, q2, q3) := q in
  moderate q0 && moderate q1 && moderate q2 && moderate q3 &&
  negb (is_zero q0 && is_zero q1 && is_zero q2 && is_zero q3).

(** One rounding changes a normal result by a factor of at most
    [1 + 2^-52]; [close n a b]: the non-negative reals [a] and [b] are
    within [n] such factors of each other. *)
Definition eps52 : R := (/ IZR (2 ^ 52))%R.
Definition grow : R := (1 + eps52)%R.

Definition close (n : nat) (a b : R) : Prop :=
  (0 <= a /\ 0 <= b /\ a <= grow ^ n * b /\ b <= grow ^ n * a)%R.

End B64.

(** The real numbers, the mathematical reference for [invSqrt]. *)
Module Exact.

Local Open Scope R_scope.

Definition eqb (x y : R) : bool := if Req_dec_T x y then true else false.
Definition ltb (x y : R) : bool := if Rlt_dec x y then true else false.

Lemma real_eqb_zero : eqb 0 0 = true.
Proof. unfold eqb. destruct (Req_dec_T 0 0); [reflexivity | contradiction]. Qed.

#[global] Instance arith : Arith R := {|
  f0 := 0; f05 := / 2; f1 := 1; f2 := 2;
  fadd := Rplus; fsub := Rminus; fmul := Rmult; fdiv := Rdiv;
  fneg := Ropp; fsqrt := sqrt;
  feqb := eqb; fltb := ltb;
  feqb_f0 := real_eqb_zero |}.

End Exact.


(** * Properties that hold in every arithmetic

    Nothing here depends on how numbers round: the statements are about
    which values the methods read, branch on and assign. *)

Section Structure.

Context {F : Type} {A : Arith F}.
Local Open Scope ar_scope.

Implicit Types (m : Mahony F) (q : quat F) (g a mg e : vec3 F).

Ltac split_quat m :=
  let q0 := fresh "q0" in let q1 := fresh "q1" in
  let q2 := fresh "q2" in let q3 := fresh "q3" in
  destruct (Quaternions m) as [[[q0 q1] q2] q3].

(** [Update6D] is guard, feedback, scaling, derivative step and
    normalisation, and it assigns the quaternion only. *)
Lemma Update6D_steps m gx gy gz ax ay az :
  Update6D m gx gy gz ax ay az =
  let q' := integrate_rate m (corrected_rate6 m (gx, gy, gz) (ax, ay, az)) in
  (set_Quaternions m q', q').
Proof.
  unfold Update6D, integrate_rate, corrected_rate6, accel_valid, pi_feedback,
    local_integral, accumulated, half_e6, half_v, normalise3, scale_rate,
    quat_derivative_step, normalise_quat, norm2.
  split_quat m.
  destruct (negb ((ax == f0) && (ay == f0) && (az == f0)));
    [destruct (fltb f0 (twoKi m)) |]; reflexivity.
Qed.

Lemma Update9D_steps m gx gy gz ax ay az mx my mz :
  Update9D m gx gy gz ax ay az mx my mz =
  let q' := integrate_rate m
              (corrected_rate9 m (gx, gy, gz) (ax, ay, az) (mx, my, mz)) in
  (set_Quaternions m q', q').
Proof.
  unfold Update9D, integrate_rate, corrected_rate9, accel_valid, pi_feedback,
    local_integral, accumulated, half_e9, half_v, half_w, normalise3, scale_rate,
    quat_derivative_step, normalise_quat, norm2.
  split_quat m.
  destruct (negb ((ax == f0) && (ay == f0) && (az == f0)));
    [destruct (fltb f0 (twoKi m)) |]; reflexivity.
Qed.

(** What a call leaves of the receiver: everything but the quaternion. *)
Lemma do_call_frame m c : exists q, do_call m c = set_Quaternions m q.
Proof.
  destruct c; simpl.
  - rewrite Update6D_steps. eexists; reflexivity.
  - rewrite Update9D_steps. eexists; reflexivity.
Qed.

(** The array a method returns is the one it has stored. *)
Lemma returned_is_stored m c :
  match c with
  | Call6D gx gy gz ax ay az =>
      snd (Update6D m gx gy gz ax ay az) = Quaternions (do_call m c)
  | Call9D gx gy gz ax ay az mx my mz =>
      snd (Update9D m gx gy gz ax ay az mx my mz) = Quaternions (do_call m c)
  end.
Proof.
  destruct c; simpl; [rewrite Update6D_steps | rewrite Update9D_steps];
    reflexivity.
Qed.

Lemma do_call_twoKi m c : twoKi (do_call m c) = twoKi m.
Proof. destruct (do_call_frame m c) as [q ->]. reflexivity. Qed.

Lemma run_twoKi cs : forall m, twoKi (run m cs) = twoKi m.
Proof.
  induction cs as [|c cs IH]; intros m.
  - reflexivity.
  - change (run m (c :: cs)) with (run (do_call m c) cs).
    rewrite IH. apply do_call_twoKi.
Qed.

(** The two branches of "Compute and apply integral feedback if enabled",
    on the local variables. *)
Lemma local_integral_enabled m e :
  fltb f0 (twoKi m) = true -> local_integral m e = accumulated m e.
Proof. unfold local_integral. intros ->. reflexivity. Qed.

Lemma local_integral_disabled m e :
  fltb f0 (twoKi m) = false -> local_integral m e = (f0, f0, f0).
Proof. unfold local_integral. intros ->. reflexivity. Qed.

Lemma do_call_integralFB m c : integralFB (do_call m c) = integralFB m.
Proof. destruct (do_call_frame m c) as [q ->]. reflexivity. Qed.

Lemma run_integralFB cs : forall m, integralFB (run m cs) = integralFB m.
Proof.
  induction cs as [|c cs IH]; intros m.
  - reflexivity.
  - change (run m (c :: cs)) with (run (do_call m c) cs).
    rewrite IH. apply do_call_integralFB.
Qed.

(** No state a program can hold has a non-zero accumulator field: the
    constructor zeroes the three fields and nothing assigns them. *)
Lemma reachable_integralFB m : reachable m -> integralFB m = (f0, f0, f0).
Proof.
  induction 1 as [kp ki sf | m sf _ IH | m q _ IH | m c _ IH].
  - reflexivity.
  - exact IH.
  - exact IH.
  - rewrite do_call_integralFB. exact IH.
Qed.

(** With the guard false the rate that is integrated is the gyroscope
    rate. *)
Lemma corrected_rate6_invalid m g a :
  accel_valid a = false -> corrected_rate6 m g a = g.
Proof. unfold corrected_rate6. intros ->. reflexivity. Qed.

Lemma corrected_rate9_invalid m g a mg :
  accel_valid a = false -> corrected_rate9 m g a mg = g.
Proof. unfold corrected_rate9. intros ->. reflexivity. Qed.

Lemma accel_valid_zero : accel_valid (f0, f0, f0) = false.
Proof. unfold accel_valid. rewrite feqb_f0. reflexivity. Qed.

(** The guard is all that separates the two methods. *)
Lemma Update9D_invalid m gx gy gz ax ay az mx my mz :
  accel_valid (ax, ay, az) = false ->
  Update9D m gx gy gz ax ay az mx my mz = Update6D m gx gy gz ax ay az.
Proof.
  intros H. rewrite Update9D_steps, Update6D_steps.
  rewrite corrected_rate9_invalid, corrected_rate6_invalid by exact H.
  reflexivity.
Qed.

(** C3. Degenerate-input skip: with the accelerometer reading (0, 0, 0),
    the quaternion that [Update6D] and [Update9D] store and return is the
    pure gyro-integration result: the raw gyroscope rate scaled by
    0.5 * (1 / sampleFreq), put through the quaternion-derivative step and
    normalised, with no gravity or magnetic term. *)
Theorem degenerate_input_skip m gx gy gz mx my mz :
  let pure := normalise_quat
                (quat_derivative_step (Quaternions m)
                   (scale_rate (SampleFreq m) (gx, gy, gz))) in
  Update6D m gx gy gz f0 f0 f0 = (set_Quaternions m pure, pure) /\
  Update9D m gx gy gz f0 f0 f0 mx my mz = (set_Quaternions m pure, pure).
Proof.
  cbv zeta. split.
  - rewrite Update6D_steps.
    rewrite corrected_rate6_invalid by apply accel_valid_zero. reflexivity.
  - rewrite Update9D_steps.
    rewrite corrected_rate9_invalid by apply accel_valid_zero. reflexivity.
Qed.

(** C4. Windup prevention: a filter constructed with integral gain 0 has
    its three accumulator fields equal to zero after any finite sequence of
    [Update6D] and [Update9D] calls, whatever the sensor values. *)
Theorem windup_prevention kp sampleFreq (cs : list (call F)) :
  let m := run (NewMahony kp f0 sampleFreq) cs in
  integralFBx m = f0 /\ integralFBy m = f0 /\ integralFBz m = f0.
Proof.
  cbv zeta.
  pose proof (run_integralFB cs (NewMahony kp f0 sampleFreq)) as H.
  unfold integralFB in H. simpl in H.
  injection H as Hx Hy Hz. auto.
Qed.

(** C6. Kinematic integration step: in both methods the corrected angular
    rate is first multiplied by 0.5 * (1 / sampleFreq), then added into the
    quaternion by the componentwise first-order derivative step, whose
    right-hand sides read the components the quaternion had before the
    call, and only then normalised. *)
Theorem kinematic_integration_step m gx gy gz ax ay az mx my mz :
  let '(q0, q1, q2, q3) := Quaternions m in
  let step g' :=
    let '(hx, hy, hz) := scale_rate (SampleFreq m) g' in
    normalise_quat
      (q0 + (-q1*hx - q2*hy - q3*hz),
       q1 + (q0*hx + q2*hz - q3*hy),
       q2 + (q0*hy - q1*hz + q3*hx),
       q3 + (q0*hz + q1*hy - q2*hx)) in
  snd (Update6D m gx gy gz ax ay az) =
    step (corrected_rate6 m (gx, gy, gz) (ax, ay, az)) /\
  snd (Update9D m gx gy gz ax ay az mx my mz) =
    step (corrected_rate9 m (gx, gy, gz) (ax, ay, az) (mx, my, mz)).
Proof.
  rewrite Update6D_steps, Update9D_steps. unfold integrate_rate.
  destruct (Quaternions m) as [[[q0 q1] q2] q3]. cbv zeta.
  split; simpl snd.
  - destruct (scale_rate _ (corrected_rate6 _ _ _)) as [[hx hy] hz].
    reflexivity.
  - destruct (scale_rate _ (corrected_rate9 _ _ _ _)) as [[hx hy] hz].
    reflexivity.
Qed.

(** C9. Configuration frame condition: a call to [Update6D] or [Update9D]
    leaves [twoKp], [twoKi] and [SampleFreq] as they were. *)
Theorem configuration_unchanged m gx gy gz ax ay az mx my mz :
  let m6 := fst (Update6D m gx gy gz ax ay az) in
  let m9 := fst (Update9D m gx gy gz ax ay az mx my mz) in
  (twoKp m6 = twoKp m /\ twoKi m6 = twoKi m /\ SampleFreq m6 = SampleFreq m) /\
  (twoKp m9 = twoKp m /\ twoKi m9 = twoKi m /\ SampleFreq m9 = SampleFreq m).
Proof.
  cbv zeta. rewrite Update6D_steps, Update9D_steps. simpl.
  repeat split; reflexivity.
Qed.

(** C10. With the accelerometer reading (0, 0, 0), [Update9D] gives the
    receiver state and the return value of [Update6D] on the same state and
    gyroscope rate, for every magnetometer reading. *)
Theorem update9D_degenerate_is_update6D m gx gy gz mx my mz :
  Update9D m gx gy gz f0 f0 f0 mx my mz = Update6D m gx gy gz f0 f0 f0.
Proof. apply Update9D_invalid, accel_valid_zero. Qed.

End Structure.

(** * Properties of the program on binary64 *)

Module OnB64.

Import B64.
Local Open Scope ar_scope.

(** NaN is absorbing for every operation of the update. *)
Lemma add_nan_l (x : t) : nan + x = nan.
Proof. destruct x; reflexivity. Qed.
Lemma add_nan_r (x : t) : x + nan = nan.
Proof. destruct x; reflexivity. Qed.
Lemma sub_nan_l (x : t) : nan - x = nan.
Proof. destruct x; reflexivity. Qed.
Lemma sub_nan_r (x : t) : x - nan = nan.
Proof. destruct x; reflexivity. Qed.
Lemma mul_nan_l (x : t) : nan * x = nan.
Proof. destruct x; reflexivity. Qed.
Lemma mul_nan_r (x : t) : x * nan = nan.
Proof. destruct x; reflexivity. Qed.
Lemma div_nan_r (x : t) : x / nan = nan.
Proof. destruct x; reflexivity. Qed.
Lemma sqrt_nan : fsqrt nan = nan.
Proof. reflexivity. Qed.

Create Rewrite HintDb nan64.
#[local] Hint Rewrite add_nan_l add_nan_r sub_nan_l sub_nan_r
  mul_nan_l mul_nan_r div_nan_r sqrt_nan : nan64.

(** The reciprocal norm of a zero vector is [1 / 0], and the zero vector
    times it is NaN on every axis. *)
Lemma invSqrt_zero_vector (sx sy sz : bool) :
  let mx := S754_zero sx in
  let my := S754_zero sy in
  let mz := S754_zero sz in
  invSqrt (mx*mx + my*my + mz*mz) = pinf.
Proof. destruct sx, sy, sz; reflexivity. Qed.

Lemma normalise3_zero_vector (sx sy sz : bool) :
  normalise3 (S754_zero sx, S754_zero sy, S754_zero sz) = (nan, nan, nan).
Proof. destruct sx, sy, sz; reflexivity. Qed.

Lemma half_e9_nan (q : quat t) (a : vec3 t) (sx sy sz : bool) :
  half_e9 q a (S754_zero sx, S754_zero sy, S754_zero sz) = (nan, nan, nan).
Proof.
  unfold half_e9. rewrite normalise3_zero_vector.
  destruct (normalise3 a) as [[ax ay] az].
  destruct q as [[[q0 q1] q2] q3].
  unfold half_v, half_w. cbv zeta.
  autorewrite with nan64. reflexivity.
Qed.

Lemma pi_feedback_nan (m : Mahony t) (g : vec3 t) :
  pi_feedback m g (nan, nan, nan) = (nan, nan, nan).
Proof.
  unfold pi_feedback, local_integral, accumulated.
  destruct g as [[gx gy] gz].
  destruct (fltb f0 (twoKi m)); autorewrite with nan64; reflexivity.
Qed.

Lemma integrate_rate_nan (m : Mahony t) :
  integrate_rate m (nan, nan, nan) = (nan, nan, nan, nan).
Proof.
  unfold integrate_rate, scale_rate, quat_derivative_step.
  destruct (Quaternions m) as [[[q0 q1] q2] q3].
  autorewrite with nan64.
  unfold normalise_quat. autorewrite with nan64. reflexivity.
Qed.

(** C1, the code at a failing input.  On [NewMahony(0.2, 0.1, 100)] the
    integral gain is positive; after [Update6D(0,0,0, 1,0,0)] and after
    [Update9D(0,0,0, 1,0,0, 0,1,0)] the three accumulator fields hold what
    they held before the call, which is not the accumulator plus
    [twoKi * half_e * (1 / sampleFreq)]: that sum is computed in local
    variables and never assigned to the receiver. *)
Theorem integral_state_not_stored :
  let m := m_default in
  let m6 := fst (Update6D m zero zero zero one zero zero) in
  let m9 := fst (Update9D m zero zero zero one zero zero zero one zero) in
  let e6 := half_e6 (Quaternions m) (one, zero, zero) in
  let e9 := half_e9 (Quaternions m) (one, zero, zero) (zero, one, zero) in
  fltb f0 (twoKi m) = true /\
  accel_valid (one, zero, zero) = true /\
  integralFB m6 = integralFB m /\ integralFB m6 <> accumulated m e6 /\
  integralFB m9 = integralFB m /\ integralFB m9 <> accumulated m e9.
Proof.
  cbv zeta. vm_compute.
  repeat split; try reflexivity; intros H; discriminate H.
Qed.

(** C2 fails as stated.  The state [m_zero_quat] is one a client can hold,
    the accelerometer reading (0, 0, 1) is not degenerate, and the call
    stores NaN in every component of the quaternion: its squared norm is
    not within 1e-9 of 1. *)
Lemma unit_norm_fails_on_zero_quaternion :
  let m' := fst (Update6D m_zero_quat zero zero zero zero zero one) in
  reachable m_zero_quat /\
  accel_valid (zero, zero, one) = true /\
  Quaternions m' = (nan, nan, nan, nan) /\
  within tol (norm2 (Quaternions m')) one = false.
Proof.
  cbv zeta. split; [| vm_compute; repeat split; reflexivity].
  apply reach_set_quat, reach_new.
Qed.

(** Rounding can break the norm from the constructor's own state as well:
    with a gyroscope rate of 1e200 the sum of squares overflows, its
    reciprocal root is 0 and the stored quaternion is the zero array. *)
Example unit_norm_fails_on_overflow :
  let big := of_Z (10 ^ 200) in
  snd (Update6D m_default big zero zero zero zero one)
  = (zero, zero, zero, zero).
Proof. vm_compute. reflexivity. Qed.

(** On ordinary input the stored norm is within the tolerance. *)
Example unit_norm_first_step :
  let m' := fst (Update9D m_default (dec 1 100) (dec (-2) 100) (dec 3 100)
                   (dec 1 10) (dec 2 10) (dec 98 10)
                   (dec (-3) 10) (dec 2 10) (dec (-9) 10)) in
  within tol (norm2 (Quaternions m')) one = true.
Proof. vm_compute. reflexivity. Qed.

(** The fixed point of the identity quaternion is exact on binary64 too:
    at rest, gravity along +Z and the field along +X. *)
Example fixed_point_identity_b64 :
  Update6D m_default zero zero zero zero zero (dec 98 10)
  = (m_default, Quaternions m_default) /\
  Update9D m_default zero zero zero zero zero (dec 98 10) one zero zero
  = (m_default, Quaternions m_default).
Proof. vm_compute. split; reflexivity. Qed.

(** With integral gain 0 the local accumulator is zero as well in every
    call of a sequence: [2 * 0] is not positive and the windup branch is
    the one taken. *)
Lemma windup_locals_b64 (kp sampleFreq : t) (cs : list (call t)) (e : vec3 t) :
  local_integral (run (NewMahony kp zero sampleFreq) cs) e
  = (zero, zero, zero).
Proof.
  change (zero, zero, zero) with ((f0, f0, f0) : vec3 t).
  apply local_integral_disabled. rewrite run_twoKi. reflexivity.
Qed.

(** C8. 9-axis gating.  The accelerometer check is the only guard of
    [Update9D]: when it fails, the magnetometer reading is not looked at;
    when it passes and the magnetometer reading is (0, 0, 0), of either
    sign, its normalisation divides 1 by 0, and NaN reaches every component
    of the stored and returned quaternion, for every state and gyroscope
    rate. *)
Theorem update9D_gating :
  (forall (m : Mahony t) gx gy gz ax ay az mx my mz mx' my' mz',
      accel_valid (ax, ay, az) = false ->
      Update9D m gx gy gz ax ay az mx my mz =
      Update9D m gx gy gz ax ay az mx' my' mz') /\
  (forall (m : Mahony t) gx gy gz ax ay az (sx sy sz : bool),
      accel_valid (ax, ay, az) = true ->
      let mx := S754_zero sx in
      let my := S754_zero sy in
      let mz := S754_zero sz in
      invSqrt (mx*mx + my*my + mz*mz) = pinf /\
      normalise3 (mx, my, mz) = (nan, nan, nan) /\
      Update9D m gx gy gz ax ay az mx my mz =
      (set_Quaternions m (nan, nan, nan, nan), (nan, nan, nan, nan))).
Proof.
  split.
  - intros m gx gy gz ax ay az mx my mz mx' my' mz' H.
    rewrite !Update9D_invalid by exact H. reflexivity.
  - intros m gx gy gz ax ay az sx sy sz H. cbv zeta.
    split; [apply invSqrt_zero_vector |].
    split; [apply normalise3_zero_vector |].
    rewrite Update9D_steps. unfold corrected_rate9. rewrite H.
    rewrite half_e9_nan, pi_feedback_nan, integrate_rate_nan. reflexivity.
Qed.

Lemma update9D_gating_witness :
  Update9D m_default zero zero zero zero zero zero zero zero zero =
  Update9D m_default zero zero zero zero zero zero one one one /\
  Update9D m_default zero zero zero zero zero one zero zero zero =
  (set_Quaternions m_default (nan, nan, nan, nan), (nan, nan, nan, nan)).
Proof.
  split.
  - apply (proj1 update9D_gating). reflexivity.
  - apply (proj2 update9D_gating m_default zero zero zero zero zero one
             false false false).
    reflexivity.
Defined.

End OnB64.

(** * The reciprocal square root on the real numbers *)

Module OnReals.

Import Exact.
Local Open Scope R_scope.

Ltac reals :=
  cbn [fadd fsub fmul fdiv fneg fsqrt f0 f05 f1 f2 feqb fltb arith] in *.

Lemma invSqrt_sqr (x : R) : 0 < x -> invSqrt x * invSqrt x * x = 1.
Proof.
  intros Hx. unfold invSqrt. reals.
  pose proof (sqrt_lt_R0 x Hx) as Hs.
  pose proof (sqrt_sqrt x (Rlt_le _ _ Hx)) as Hss.
  rewrite <- Hss at 3. field. lra.
Qed.

End OnReals.

(** * The reciprocal square root *)

Section InvSqrt.

Local Open Scope R_scope.

(** C7. [invSqrt] is the quotient of 1 by the square root.  In exact
    arithmetic, for every positive [x], it is [1 / sqrt x], the positive
    number whose square times [x] is 1.  On binary64 it is the correctly
    rounded division of 1 by the correctly rounded square root, for every
    input: no bit-level approximation is involved, so that [invSqrt 4] is
    0.5 to the last bit.  The result depends on the argument only.  For a
    zero argument the result is the infinity of the same sign. *)
Theorem invSqrt_contract :
  (forall x : R, 0 < x ->
     invSqrt x = 1 / sqrt x /\ 0 < invSqrt x /\ invSqrt x * invSqrt x * x = 1) /\
  (forall x : B64.t,
     invSqrt x = SFdiv B64.prec B64.emax B64.one (SFsqrt B64.prec B64.emax x)) /\
  (forall s : bool, invSqrt (S754_zero s : B64.t) = S754_infinity s) /\
  invSqrt (B64.of_Z 4) = B64.half.
Proof.
  split; [| split; [| split]].
  - intros x Hx. split; [reflexivity |]. split.
    + unfold invSqrt. simpl. apply Rdiv_lt_0_compat; [lra |].
      apply sqrt_lt_R0, Hx.
    + apply OnReals.invSqrt_sqr, Hx.
  - intros x. reflexivity.
  - intros [|]; reflexivity.
  - reflexivity.
Qed.

Lemma invSqrt_contract_witness :
  (invSqrt 4 = 1 / sqrt 4 /\ 0 < invSqrt 4 /\ invSqrt 4 * invSqrt 4 * 4 = 1).
Proof.
  apply (proj1 invSqrt_contract 4). lra.
Defined.

End InvSqrt.

(** * Further properties in every arithmetic *)

Section Sequences.

Context {F : Type} {A : Arith F}.
Variable error : Type.

Implicit Types (m : Mahony F) (q : quat F) (d : dataLine F).

Lemma set_Quaternions_id m : set_Quaternions m (Quaternions m) = m.
Proof. destruct m; reflexivity. Qed.

Lemma set_Quaternions_twice m q q' :
  set_Quaternions (set_Quaternions m q) q' = set_Quaternions m q'.
Proof. reflexivity. Qed.

(** Whatever the gains and the calls, a sequence of updates changes the
    quaternion and nothing else of the receiver. *)
Theorem run_changes_quaternion_only (cs : list (call F)) :
  forall m, run m cs = set_Quaternions m (Quaternions (run m cs)).
Proof.
  induction cs as [|c cs IH]; intros m.
  - simpl. symmetry. apply set_Quaternions_id.
  - change (run m (c :: cs)) with (run (do_call m c) cs).
    rewrite IH at 1.
    destruct (do_call_frame m c) as [q Hq].
    rewrite Hq at 1. apply set_Quaternions_twice.
Qed.

Lemma TestAHRS_mahony_state (data : list (dataLine F)) :
  forall m, fst (TestAHRS_mahony m data) = run m (map driver_call data).
Proof.
  induction data as [|d data IH]; intros m.
  - reflexivity.
  - cbn [TestAHRS_mahony map].
    change (run m (driver_call d :: map driver_call data))
      with (run (do_call m (driver_call d)) (map driver_call data)).
    unfold driver_call at 1. cbn [do_call].
    destruct (Update9D m _ _ _ _ _ _ _ _ _) as [m1 q1].
    cbn [fst]. rewrite <- IH.
    destruct (TestAHRS_mahony m1 data) as [m2 qs]. reflexivity.
Qed.

Lemma BenchmarkMahony_loop_same_xy (data data' : list (dataLine F)) :
  Forall2 same_xy data data' ->
  forall N m i l,
    BenchmarkMahony_loop data l m i N = BenchmarkMahony_loop data' l m i N.
Proof.
  intros H.
  assert (Hnth : forall k,
             match nth_error data k, nth_error data' k with
             | Some d, Some d' => same_xy d d'
             | None, None => True
             | _, _ => False
             end).
  { induction H as [|d d' data data' Hd _ IHf]; intros [|k]; simpl; auto.
    apply IHf. }
  induction N as [|N IH]; intros m i l; simpl.
  - reflexivity.
  - destruct l as [|l]; [reflexivity |].
    specialize (Hnth (i mod S l)).
    destruct (nth_error data (i mod S l)) as [d|],
             (nth_error data' (i mod S l)) as [d'|];
      try contradiction; [| reflexivity].
    destruct Hnth as (-> & -> & -> & -> & -> & ->). apply IH.
Qed.

(** The drivers of the test file hand index 1 of every sensor array to the
    filter twice and never index 2: records that differ at index 2 or in
    [time] only give [TestAHRS] the same quaternions and the same final
    filter, and give [BenchmarkMahony] the same final filter. *)
Theorem drivers_ignore_third_axis (data data' : list (dataLine F)) :
  Forall2 same_xy data data' ->
  forall m N,
    TestAHRS_mahony m data = TestAHRS_mahony m data' /\
    BenchmarkMahony m (@CSV_records F error data) N =
    BenchmarkMahony m (@CSV_records F error data') N.
Proof.
  intros H m N. split.
  - revert m. induction H as [|d d' data data' Hd _ IH]; intros m; simpl.
    + reflexivity.
    + destruct Hd as (-> & -> & -> & -> & -> & ->).
      destruct (Update9D m _ _ _ _ _ _ _ _ _) as [m1 q1].
      rewrite IH. reflexivity.
  - unfold BenchmarkMahony. cbv zeta. rewrite (Forall2_length H).
    rewrite (BenchmarkMahony_loop_same_xy H). reflexivity.
Qed.

Lemma BenchmarkMahony_loop_run (data : list (dataLine F)) d0 (n l : nat) :
  l = length data -> data <> [] ->
  forall m i,
    BenchmarkMahony_loop data l m i n =
    Some (run m (map (fun k => driver_call (cycled data d0 k)) (seq i n))).
Proof.
  intros El Hne. induction n as [|n IH]; intros m i; simpl.
  - reflexivity.
  - destruct l as [|l].
    + destruct data; [contradiction | discriminate].
    + assert (Hlt : i mod S l < length data).
      { rewrite <- El. apply Nat.mod_upper_bound. discriminate. }
      rewrite (nth_error_nth' data d0 Hlt).
      rewrite IH. unfold cycled. rewrite <- El. reflexivity.
Qed.

(** How [BenchmarkMahony] ends.  After a failed read, [require.NoError]
    stops it before the loop: no call, no panic.  After a read that gave no
    record, which is what a file holding a header only gives, the first
    iteration panics on [i % 0].  With at least one record no index is out
    of range for any [b.N]: the loop makes exactly [b.N] calls, the i-th on
    record [i mod len(data)]. *)
Theorem BenchmarkMahony_data (m : Mahony F) (N : nat) :
  (forall err : error,
      BenchmarkMahony m (@CSV_error F error err) N
      = @Bench_failed F error err) /\
  BenchmarkMahony m (@CSV_records F error []) (S N)
    = @Bench_panic F error /\
  (forall (data : list (dataLine F)) d0,
      data <> [] ->
      BenchmarkMahony m (@CSV_records F error data) N =
      @Bench_done F error
        (run m (map (fun i => driver_call (cycled data d0 i)) (seq 0 N)))).
Proof.
  split; [reflexivity |]. split; [reflexivity |].
  intros data d0 Hne. unfold BenchmarkMahony. cbv zeta.
  rewrite (@BenchmarkMahony_loop_run data d0 N (length data) eq_refl Hne).
  reflexivity.
Qed.

End Sequences.

(** * The loader of the test file *)

Section Loader.

Context {F : Type} (error : Type).
Variable Sscanf_dataLine : String.string -> dataLine F.


Lemma Split_nl_length (s : String.string) :
  length (Split_nl s) = S (count_nl s).
Proof.
  induction s as [|c s IH]; simpl.
  - reflexivity.
  - destruct (Ascii.eqb c newline); simpl.
    + rewrite IH. reflexivity.
    + destruct (Split_nl s) as [|h t]; [discriminate IH | exact IH].
Qed.

Lemma Split_nl_line (s : String.string) : is_line s -> Split_nl s = [s].
Proof.
  unfold is_line. induction s as [|c s IH]; simpl; intros H.
  - reflexivity.
  - destruct (Ascii.eqb c newline); [discriminate H |].
    rewrite IH by exact H. reflexivity.
Qed.

Lemma Split_nl_app (h rest : String.string) :
  is_line h ->
  Split_nl (String.append h (String.String newline rest)) = h :: Split_nl rest.
Proof.
  unfold is_line.
  induction h as [|c h IH]; cbn [String.append Split_nl count_nl]; intros H.
  - rewrite Ascii.eqb_refl. reflexivity.
  - destruct (Ascii.eqb c newline); [discriminate H |].
    rewrite IH by exact H. reflexivity.
Qed.

Lemma Split_nl_terminated (rows : list String.string) :
  Forall is_line rows ->
  Split_nl (terminated rows) = rows ++ [String.EmptyString].
Proof.
  induction 1 as [|r rows Hr _ IH]; simpl.
  - reflexivity.
  - rewrite Split_nl_app by exact Hr. rewrite IH. reflexivity.
Qed.

Lemma Split_nl_separated (h : String.string) (rows : list String.string) :
  is_line h -> Forall is_line rows ->
  Split_nl (String.append h (separated rows)) = h :: rows.
Proof.
  intros Hh H. revert h Hh.
  induction H as [|r rows Hr _ IH]; intros h Hh; simpl.
  - replace (String.append h String.EmptyString) with h.
    + apply Split_nl_line, Hh.
    + clear. induction h as [|c h IH]; simpl; [| rewrite <- IH]; reflexivity.
  - rewrite Split_nl_app by exact Hh. rewrite IH by exact Hr. reflexivity.
Qed.

Lemma readCSV_loop_spec (lines : list String.string) :
  forall result,
    readCSV_loop Sscanf_dataLine lines result =
    result ++ map Sscanf_dataLine (filter nonempty lines).
Proof.
  induction lines as [|line lines IH]; intros result; simpl.
  - rewrite app_nil_r. reflexivity.
  - unfold nonempty at 1.
    destruct (String.eqb line String.EmptyString); simpl.
    + apply IH.
    + rewrite IH, <- app_assoc. reflexivity.
Qed.

(** Reading back what was written.  For a header line and rows without
    ["\n"], [readCSV] on the header followed by the rows, each ended by
    ["\n"], or each preceded by ["\n"] (no newline at the end of the file),
    gives the scanned rows in order, the header dropped and empty rows
    skipped. *)
Theorem readCSV_rows (header : String.string) (rows : list String.string) :
  is_line header -> Forall is_line rows ->
  let records :=
    @CSV_records F error (map Sscanf_dataLine (filter nonempty rows)) in
  readCSV Sscanf_dataLine
    (@FileBytes error
       (String.append header (String.String newline (terminated rows))))
    = records /\
  readCSV Sscanf_dataLine
    (@FileBytes error (String.append header (separated rows)))
    = records.
Proof.
  intros Hh Hr. cbv zeta. unfold readCSV. split.
  - rewrite Split_nl_app by exact Hh.
    rewrite Split_nl_terminated by exact Hr.
    rewrite readCSV_loop_spec, filter_app. simpl. rewrite app_nil_r.
    reflexivity.
  - rewrite Split_nl_separated by assumption.
    rewrite readCSV_loop_spec. reflexivity.
Qed.

(** What [readCSV] does at the edges.  A failed read is returned as it is,
    with no records.  Any content is accepted: the slice expression [[1:]]
    never panics, a file without ["\n"] (empty, or a header alone) gives no
    record and no error, and there are never more records than ["\n"] bytes
    in the file. *)
Theorem readCSV_edges :
  (forall err,
     readCSV Sscanf_dataLine (@FileError error err)
     = @CSV_error F error err) /\
  (forall data, is_line data ->
     readCSV Sscanf_dataLine (@FileBytes error data)
     = @CSV_records F error []) /\
  (forall data, exists result,
     readCSV Sscanf_dataLine (@FileBytes error data)
     = @CSV_records F error result /\
     length result <= count_nl data).
Proof.
  split; [reflexivity |]. split.
  - intros data H. unfold readCSV.
    rewrite Split_nl_line by exact H. reflexivity.
  - intros data. unfold readCSV.
    pose proof (Split_nl_length data) as Hl.
    destruct (Split_nl data) as [|h lines]; [discriminate Hl |].
    eexists. split; [reflexivity |].
    rewrite readCSV_loop_spec. simpl. rewrite length_map.
    injection Hl as <-. apply filter_length_le.
Qed.

End Loader.

(** * Edge behaviour on binary64 *)

Module EdgesB64.

Import B64.
Local Open Scope ar_scope.

Create Rewrite HintDb nan_absorbs.
#[local] Hint Rewrite OnB64.add_nan_l OnB64.add_nan_r OnB64.sub_nan_l
  OnB64.sub_nan_r OnB64.mul_nan_l OnB64.mul_nan_r OnB64.div_nan_r
  OnB64.sqrt_nan : nan_absorbs.

Lemma is_nan_eq (x : t) : is_nan x = true -> x = nan.
Proof. destruct x; try discriminate. reflexivity. Qed.

(* Splits a disjunction of [is_nan] tests and substitutes the NaN found. *)
Ltac nan_cases H :=
  repeat match type of H with
         | (_ || _)%bool = true =>
             apply orb_true_iff in H; destruct H as [H | H]
         end;
  apply is_nan_eq in H; subst.

(** [NewDefaultMahony(f)] is [NewMahony(MahonyDefaultKp, MahonyDefaultKi,
    f)]: the constants [2 * 0.2] and [2 * 0.1], evaluated exactly and then
    rounded, are the [float64] products of 2 by the rounded constants. *)
Theorem NewDefaultMahony_is_NewMahony (sampleFreq : t) :
  NewDefaultMahony sampleFreq
  = NewMahony MahonyDefaultKp MahonyDefaultKi sampleFreq.
Proof. unfold NewDefaultMahony, NewMahony. vm_compute. reflexivity. Qed.

(** [invSqrt] outside the positive numbers: NaN for a negative number,
    finite or infinite, and for NaN; zero for plus infinity. *)
Theorem invSqrt_edges :
  (forall x : t, is_negative x = true -> invSqrt x = nan) /\
  invSqrt nan = nan /\
  invSqrt pinf = zero.
Proof.
  split; [| split; reflexivity].
  intros [s | s | | s m e] H; try discriminate H;
    destruct s; try discriminate H; reflexivity.
Qed.

Lemma invSqrt_edges_witness : invSqrt (of_Z (-4)) = nan.
Proof. apply (proj1 invSqrt_edges). reflexivity. Defined.

Lemma normalise_quat_nan4 : normalise_quat nan4 = nan4.
Proof. reflexivity. Qed.

Lemma integrate_rate_nan_rate (m : Mahony t) (g : vec3 t) :
  has_nan3 g = true -> integrate_rate m g = nan4.
Proof.
  destruct g as [[gx gy] gz]. unfold has_nan3. intros H.
  unfold integrate_rate, scale_rate, quat_derivative_step.
  destruct (Quaternions m) as [[[q0 q1] q2] q3].
  nan_cases H; autorewrite with nan_absorbs; apply normalise_quat_nan4.
Qed.

Lemma integrate_rate_nan_quat (m : Mahony t) (g : vec3 t) :
  has_nan4 (Quaternions m) = true -> integrate_rate m g = nan4.
Proof.
  unfold integrate_rate, scale_rate, quat_derivative_step.
  destruct (Quaternions m) as [[[q0 q1] q2] q3], g as [[gx gy] gz].
  unfold has_nan4. intros H.
  nan_cases H; autorewrite with nan_absorbs; apply normalise_quat_nan4.
Qed.

Lemma pi_feedback_nan_rate (m : Mahony t) (g e : vec3 t) :
  has_nan3 g = true -> has_nan3 (pi_feedback m g e) = true.
Proof.
  destruct g as [[gx gy] gz], e as [[ex ey] ez]. unfold has_nan3. intros H.
  unfold pi_feedback, local_integral, accumulated.
  destruct (fltb f0 (twoKi m));
    nan_cases H; autorewrite with nan_absorbs; simpl;
    rewrite ?orb_true_r; reflexivity.
Qed.

Lemma pi_feedback_nan_error (m : Mahony t) (g : vec3 t) :
  pi_feedback m g (nan, nan, nan) = (nan, nan, nan).
Proof. apply OnB64.pi_feedback_nan. Qed.

Lemma normalise3_nan (a : vec3 t) :
  has_nan3 a = true -> normalise3 a = (nan, nan, nan).
Proof.
  destruct a as [[ax ay] az]. unfold has_nan3. intros H.
  unfold normalise3, invSqrt.
  nan_cases H; autorewrite with nan_absorbs; reflexivity.
Qed.

Lemma accel_valid_nan (a : vec3 t) :
  has_nan3 a = true -> accel_valid a = true.
Proof.
  destruct a as [[ax ay] az]. unfold has_nan3, accel_valid. intros H.
  assert (Hn : forall x : t, (nan == x) = false) by reflexivity.
  nan_cases H; rewrite Hn;
    rewrite ?andb_false_r, ?andb_false_l; reflexivity.
Qed.

Lemma half_e6_nan (q : quat t) (a : vec3 t) :
  normalise3 a = (nan, nan, nan) -> half_e6 q a = (nan, nan, nan).
Proof.
  intros H. unfold half_e6. rewrite H.
  destruct (half_v q) as [[vx vy] vz].
  autorewrite with nan_absorbs. reflexivity.
Qed.

Lemma half_e9_nan_accel (q : quat t) (a mg : vec3 t) :
  normalise3 a = (nan, nan, nan) -> half_e9 q a mg = (nan, nan, nan).
Proof.
  intros H. unfold half_e9. rewrite H.
  destruct (normalise3 mg) as [[mx my] mz].
  destruct (half_v q) as [[vx vy] vz].
  destruct (half_w q (mx, my, mz)) as [[wx wy] wz].
  autorewrite with nan_absorbs. reflexivity.
Qed.

Lemma half_e9_nan_mag (q : quat t) (a mg : vec3 t) :
  normalise3 mg = (nan, nan, nan) -> half_e9 q a mg = (nan, nan, nan).
Proof.
  intros H. unfold half_e9. rewrite H.
  destruct (normalise3 a) as [[ax ay] az].
  destruct q as [[[q0 q1] q2] q3].
  unfold half_v, half_w. cbv zeta.
  autorewrite with nan_absorbs. reflexivity.
Qed.

Lemma corrected_rate6_nan (m : Mahony t) (g a : vec3 t) :
  has_nan3 g || has_nan3 a = true ->
  has_nan3 (corrected_rate6 m g a) = true.
Proof.
  intros H. unfold corrected_rate6.
  apply orb_true_iff in H. destruct H as [H | H].
  - destruct (accel_valid a); [apply pi_feedback_nan_rate |]; exact H.
  - rewrite (accel_valid_nan _ H).
    rewrite half_e6_nan by (apply normalise3_nan, H).
    rewrite pi_feedback_nan_error. reflexivity.
Qed.

Lemma corrected_rate9_nan (m : Mahony t) (g a mg : vec3 t) :
  has_nan3 g || has_nan3 a || (accel_valid a && has_nan3 mg) = true ->
  has_nan3 (corrected_rate9 m g a mg) = true.
Proof.
  intros H. unfold corrected_rate9.
  apply orb_true_iff in H. destruct H as [H | H];
    [apply orb_true_iff in H; destruct H as [H | H] |].
  - destruct (accel_valid a); [apply pi_feedback_nan_rate |]; exact H.
  - rewrite (accel_valid_nan _ H).
    rewrite half_e9_nan_accel by (apply normalise3_nan, H).
    rewrite pi_feedback_nan_error. reflexivity.
  - apply andb_true_iff in H. destruct H as [Hv H]. rewrite Hv.
    rewrite half_e9_nan_mag by (apply normalise3_nan, H).
    rewrite pi_feedback_nan_error. reflexivity.
Qed.

(** A NaN on any axis of the gyroscope or of the accelerometer, and for
    [Update9D] also on any axis of the magnetometer when the accelerometer
    guard passes, makes the call store and return NaN in all four
    components, whatever the state and the other readings: a NaN
    accelerometer axis is not caught by the zero-vector guard. *)
Theorem nan_reading_corrupts (m : Mahony t) gx gy gz ax ay az mx my mz :
  let g := (gx, gy, gz) in
  let a := (ax, ay, az) in
  let mg := (mx, my, mz) in
  (has_nan3 g || has_nan3 a = true ->
   Update6D m gx gy gz ax ay az = (set_Quaternions m nan4, nan4)) /\
  (has_nan3 g || has_nan3 a || (accel_valid a && has_nan3 mg) = true ->
   Update9D m gx gy gz ax ay az mx my mz = (set_Quaternions m nan4, nan4)).
Proof.
  cbv zeta. split; intros H.
  - rewrite Update6D_steps. cbv zeta.
    rewrite integrate_rate_nan_rate by (apply corrected_rate6_nan, H).
    reflexivity.
  - rewrite Update9D_steps. cbv zeta.
    rewrite integrate_rate_nan_rate by (apply corrected_rate9_nan, H).
    reflexivity.
Qed.

Lemma nan_reading_corrupts_witness :
  Update6D m_default zero zero zero one nan zero
    = (set_Quaternions m_default nan4, nan4) /\
  Update9D m_default zero zero zero zero zero one one nan zero
    = (set_Quaternions m_default nan4, nan4).
Proof.
  split.
  - apply (proj1 (@nan_reading_corrupts m_default zero zero zero one nan zero
                    zero zero zero)).
    reflexivity.
  - apply (proj2 (@nan_reading_corrupts m_default zero zero zero zero zero one
                    one nan zero)).
    reflexivity.
Defined.

Lemma do_call_nan_quat (m : Mahony t) (c : call t) :
  has_nan4 (Quaternions m) = true -> Quaternions (do_call m c) = nan4.
Proof.
  intros H. destruct c; cbn [do_call];
    [rewrite Update6D_steps | rewrite Update9D_steps]; cbv zeta; cbn [fst];
    cbn [set_Quaternions Quaternions];
    apply integrate_rate_nan_quat, H.
Qed.

(** No recovery from NaN.  Once one component of the stored quaternion is
    NaN, every later call, [Update6D] or [Update9D] with any readings,
    leaves all four components NaN. *)
Theorem nan_quaternion_persists (m : Mahony t) (c : call t) (cs : list (call t)) :
  has_nan4 (Quaternions m) = true ->
  Quaternions (run m (c :: cs)) = nan4.
Proof.
  revert m c. induction cs as [|c' cs IH]; intros m c H.
  - apply do_call_nan_quat, H.
  - change (run m (c :: c' :: cs)) with (run (do_call m c) (c' :: cs)).
    apply IH. rewrite do_call_nan_quat by exact H. reflexivity.
Qed.

Lemma nan_quaternion_persists_witness :
  Quaternions
    (run (set_Quaternions m_default (one, zero, nan, zero))
       [Call6D zero zero zero zero zero one;
        Call9D zero zero zero zero zero one one zero zero])
  = nan4.
Proof. apply nan_quaternion_persists. reflexivity. Defined.

(** Infinities and NaN through the operations. *)
Lemma inf_or_nan_mul_r (x y : t) :
  inf_or_nan y = true -> inf_or_nan (x * y) = true.
Proof. intros H. destruct x, y; try discriminate H; reflexivity. Qed.

Lemma inf_or_nan_add_r (x y : t) :
  inf_or_nan y = true -> inf_or_nan (x + y) = true.
Proof.
  intros H.
  destruct x as [s | s | | s ? ?], y as [s' | s' | | s' ? ?];
    try discriminate H; try destruct s; try destruct s'; reflexivity.
Qed.

Lemma inf_or_nan_sub_r (x y : t) :
  inf_or_nan y = true -> inf_or_nan (x - y) = true.
Proof.
  intros H.
  destruct x as [s | s | | s ? ?], y as [s' | s' | | s' ? ?];
    try discriminate H; try destruct s; try destruct s'; reflexivity.
Qed.

Lemma pinf_or_nan_square (x : t) :
  inf_or_nan x = true -> pinf_or_nan (x * x) = true.
Proof.
  intros H. destruct x as [s | s | | s ? ?]; try discriminate H;
    try destruct s; reflexivity.
Qed.

Lemma pinf_or_nan_add (x y : t) :
  pinf_or_nan x = true -> pinf_or_nan y = true -> pinf_or_nan (x + y) = true.
Proof.
  intros Hx Hy.
  destruct x as [s | s | | s ? ?]; try discriminate Hx;
    destruct y as [s' | s' | | s' ? ?]; try discriminate Hy;
    try destruct s; try destruct s'; try discriminate; reflexivity.
Qed.

Lemma invSqrt_pinf_or_nan (x : t) :
  pinf_or_nan x = true -> zero_or_nan (invSqrt x) = true.
Proof.
  intros H. destruct x as [s | s | | s ? ?]; try discriminate H;
    try destruct s; try discriminate H; reflexivity.
Qed.

Lemma mul_inf_zero (x r : t) :
  inf_or_nan x = true -> zero_or_nan r = true -> x * r = nan.
Proof.
  intros Hx Hr.
  destruct x as [s | s | | s ? ?]; try discriminate Hx;
    destruct r as [s' | s' | | s' ? ?]; try discriminate Hr; reflexivity.
Qed.

Lemma scale_factor_zero_freq (s : bool) :
  f05 * (f1 / S754_zero s) = S754_infinity s.
Proof. destruct s; reflexivity. Qed.

Lemma integrate_rate_zero_freq (m : Mahony t) (g : vec3 t) :
  is_zero (SampleFreq m) = true -> integrate_rate m g = nan4.
Proof.
  intros Hf. unfold integrate_rate, scale_rate.
  destruct (SampleFreq m) as [s | | |]; try discriminate Hf.
  destruct g as [[gx gy] gz]. rewrite scale_factor_zero_freq.
  assert (Hx : inf_or_nan (gx * S754_infinity s) = true)
    by (apply inf_or_nan_mul_r; reflexivity).
  assert (Hy : inf_or_nan (gy * S754_infinity s) = true)
    by (apply inf_or_nan_mul_r; reflexivity).
  assert (Hz : inf_or_nan (gz * S754_infinity s) = true)
    by (apply inf_or_nan_mul_r; reflexivity).
  set (hx := gx * S754_infinity s) in *. clearbody hx.
  set (hy := gy * S754_infinity s) in *. clearbody hy.
  set (hz := gz * S754_infinity s) in *. clearbody hz.
  destruct (Quaternions m) as [[[q0 q1] q2] q3].
  unfold quat_derivative_step.
  assert (H0 : inf_or_nan (q0 + (-q1*hx - q2*hy - q3*hz)) = true)
    by (apply inf_or_nan_add_r, inf_or_nan_sub_r, inf_or_nan_mul_r, Hz).
  assert (H1 : inf_or_nan (q1 + (q0*hx + q2*hz - q3*hy)) = true)
    by (apply inf_or_nan_add_r, inf_or_nan_sub_r, inf_or_nan_mul_r, Hy).
  assert (H2 : inf_or_nan (q2 + (q0*hy - q1*hz + q3*hx)) = true)
    by (apply inf_or_nan_add_r, inf_or_nan_add_r, inf_or_nan_mul_r, Hx).
  assert (H3 : inf_or_nan (q3 + (q0*hz + q1*hy - q2*hx)) = true)
    by (apply inf_or_nan_add_r, inf_or_nan_sub_r, inf_or_nan_mul_r, Hx).
  set (c0 := q0 + _) in *. clearbody c0.
  set (c1 := q1 + _) in *. clearbody c1.
  set (c2 := q2 + _) in *. clearbody c2.
  set (c3 := q3 + _) in *. clearbody c3.
  unfold normalise_quat, norm2.
  assert (Hr : zero_or_nan (invSqrt (c0*c0 + c1*c1 + c2*c2 + c3*c3)) = true).
  { apply invSqrt_pinf_or_nan.
    repeat apply pinf_or_nan_add; apply pinf_or_nan_square; assumption. }
  rewrite !mul_inf_zero by assumption. reflexivity.
Qed.

(** A filter whose sample frequency is zero, of either sign (the zero
    value [Mahony{}], or [NewMahony(kp, ki, 0)]), stores and returns NaN in
    all four components at every call, whatever its quaternion and the
    readings: the common factor [0.5 * (1 / 0)] is infinite. *)
Theorem zero_sample_frequency_corrupts (m : Mahony t)
  gx gy gz ax ay az mx my mz :
  is_zero (SampleFreq m) = true ->
  Update6D m gx gy gz ax ay az = (set_Quaternions m nan4, nan4) /\
  Update9D m gx gy gz ax ay az mx my mz = (set_Quaternions m nan4, nan4).
Proof.
  intros H. rewrite Update6D_steps, Update9D_steps. cbv zeta.
  rewrite !integrate_rate_zero_freq by exact H. split; reflexivity.
Qed.

Lemma zero_sample_frequency_corrupts_witness :
  let m := mkMahony zero zero zero zero zero zero (one, zero, zero, zero) in
  Update6D m one two zero zero zero one = (set_Quaternions m nan4, nan4) /\
  Update9D m one two zero zero zero one one zero zero
    = (set_Quaternions m nan4, nan4).
Proof.
  cbv zeta.
  apply (@zero_sample_frequency_corrupts
           (mkMahony zero zero zero zero zero zero (one, zero, zero, zero))).
  reflexivity.
Defined.

Lemma inf_or_nan_mul_l (x y : t) :
  inf_or_nan x = true -> inf_or_nan (x * y) = true.
Proof. intros H. destruct x, y; try discriminate H; reflexivity. Qed.

Lemma inf_or_nan_add_l (x y : t) :
  inf_or_nan x = true -> inf_or_nan (x + y) = true.
Proof.
  intros H.
  destruct x as [s | s | | s ? ?], y as [s' | s' | | s' ? ?];
    try discriminate H; try destruct s; try destruct s'; reflexivity.
Qed.

Lemma inf_or_nan_sub_l (x y : t) :
  inf_or_nan x = true -> inf_or_nan (x - y) = true.
Proof.
  intros H.
  destruct x as [s | s | | s ? ?], y as [s' | s' | | s' ? ?];
    try discriminate H; try destruct s; try destruct s'; reflexivity.
Qed.

Lemma inf_or_nan_sqrt (x : t) :
  inf_or_nan x = true -> inf_or_nan (fsqrt x) = true.
Proof.
  intros H. destruct x as [s | s | | s ? ?]; try discriminate H;
    try destruct s; reflexivity.
Qed.

Ltac split_inf3 H :=
  unfold inf_or_nan3 in H;
  apply andb_true_iff in H; destruct H as [H ?];
  apply andb_true_iff in H; destruct H as [? ?].

Ltac join_inf3 :=
  unfold inf_or_nan3; rewrite !andb_true_iff; repeat split.

(** The normalisation of a vector whose squares sum to zero. *)
Lemma normalise3_underflow (v : vec3 t) :
  is_zero (sum_squares v) = true -> inf_or_nan3 (normalise3 v) = true.
Proof.
  destruct v as [[x y] z]. unfold sum_squares, normalise3, invSqrt. intros H.
  change (SFadd prec emax (SFadd prec emax (SFmul prec emax x x)
            (SFmul prec emax y y)) (SFmul prec emax z z))
    with (x*x + y*y + z*z)%ar in H.
  destruct (x*x + y*y + z*z)%ar as [s | | |]; try discriminate H.
  assert (Hr : inf_or_nan (f1 / fsqrt (S754_zero s)) = true)
    by (destruct s; reflexivity).
  join_inf3; apply inf_or_nan_mul_r, Hr.
Qed.

Lemma half_e6_inf (q : quat t) (a : vec3 t) :
  inf_or_nan3 (normalise3 a) = true -> inf_or_nan3 (half_e6 q a) = true.
Proof.
  intros H. unfold half_e6.
  destruct (normalise3 a) as [[ax ay] az]. split_inf3 H.
  destruct (half_v q) as [[vx vy] vz].
  join_inf3; apply inf_or_nan_sub_l, inf_or_nan_mul_l; assumption.
Qed.

Lemma half_e9_inf_accel (q : quat t) (a mg : vec3 t) :
  inf_or_nan3 (normalise3 a) = true -> inf_or_nan3 (half_e9 q a mg) = true.
Proof.
  intros H. unfold half_e9.
  destruct (normalise3 a) as [[ax ay] az]. split_inf3 H.
  destruct (normalise3 mg) as [[mx my] mz].
  destruct (half_v q) as [[vx vy] vz].
  destruct (half_w q (mx, my, mz)) as [[wx wy] wz].
  join_inf3;
    apply inf_or_nan_add_l, inf_or_nan_sub_l, inf_or_nan_mul_l; assumption.
Qed.

Lemma half_e9_inf_mag (q : quat t) (a mg : vec3 t) :
  inf_or_nan3 (normalise3 mg) = true -> inf_or_nan3 (half_e9 q a mg) = true.
Proof.
  intros H. unfold half_e9.
  destruct (normalise3 a) as [[ax ay] az].
  destruct (normalise3 mg) as [[mx my] mz]. split_inf3 H.
  destruct (half_v q) as [[vx vy] vz].
  destruct (half_w q (mx, my, mz)) as [[wx wy] wz].
  join_inf3;
    apply inf_or_nan_add_r, inf_or_nan_sub_l, inf_or_nan_mul_l; assumption.
Qed.

Lemma pi_feedback_inf (m : Mahony t) (g e : vec3 t) :
  inf_or_nan3 e = true -> inf_or_nan3 (pi_feedback m g e) = true.
Proof.
  destruct g as [[gx gy] gz], e as [[ex ey] ez]. intros H. split_inf3 H.
  unfold pi_feedback, local_integral, accumulated.
  destruct (fltb f0 (twoKi m));
    join_inf3; apply inf_or_nan_add_r, inf_or_nan_mul_r; assumption.
Qed.

Lemma integrate_rate_inf (m : Mahony t) (g : vec3 t) :
  inf_or_nan3 g = true -> integrate_rate m g = nan4.
Proof.
  destruct g as [[gx gy] gz]. intros H. split_inf3 H.
  unfold integrate_rate, scale_rate.
  set (k := f05 * (f1 / SampleFreq m)).
  assert (Hx : inf_or_nan (gx * k) = true)
    by (apply inf_or_nan_mul_l; assumption).
  assert (Hy : inf_or_nan (gy * k) = true)
    by (apply inf_or_nan_mul_l; assumption).
  assert (Hz : inf_or_nan (gz * k) = true)
    by (apply inf_or_nan_mul_l; assumption).
  set (hx := gx * k) in *. clearbody hx.
  set (hy := gy * k) in *. clearbody hy.
  set (hz := gz * k) in *. clearbody hz.
  destruct (Quaternions m) as [[[q0 q1] q2] q3].
  unfold quat_derivative_step.
  assert (Hc0 : inf_or_nan (q0 + (-q1*hx - q2*hy - q3*hz)) = true)
    by (apply inf_or_nan_add_r, inf_or_nan_sub_r, inf_or_nan_mul_r, Hz).
  assert (Hc1 : inf_or_nan (q1 + (q0*hx + q2*hz - q3*hy)) = true)
    by (apply inf_or_nan_add_r, inf_or_nan_sub_r, inf_or_nan_mul_r, Hy).
  assert (Hc2 : inf_or_nan (q2 + (q0*hy - q1*hz + q3*hx)) = true)
    by (apply inf_or_nan_add_r, inf_or_nan_add_r, inf_or_nan_mul_r, Hx).
  assert (Hc3 : inf_or_nan (q3 + (q0*hz + q1*hy - q2*hx)) = true)
    by (apply inf_or_nan_add_r, inf_or_nan_sub_r, inf_or_nan_mul_r, Hx).
  set (c0 := q0 + _) in *. clearbody c0.
  set (c1 := q1 + _) in *. clearbody c1.
  set (c2 := q2 + _) in *. clearbody c2.
  set (c3 := q3 + _) in *. clearbody c3.
  unfold normalise_quat, norm2.
  assert (Hr : zero_or_nan (invSqrt (c0*c0 + c1*c1 + c2*c2 + c3*c3)) = true).
  { apply invSqrt_pinf_or_nan.
    repeat apply pinf_or_nan_add; apply pinf_or_nan_square; assumption. }
  rewrite !mul_inf_zero by assumption. reflexivity.
Qed.

(** The zero guard does not keep NaN out of the normalisation.  A reading
    that is not the zero vector passes it; when its squares underflow, so
    that their sum is zero (every axis below about 1e-162 in magnitude),
    the reciprocal norm is infinite and the call stores and returns NaN in
    all four components.  The same holds in [Update9D] for such a
    magnetometer reading, the zero vector included. *)
Theorem underflowing_reading_corrupts (m : Mahony t)
  gx gy gz ax ay az mx my mz :
  accel_valid (ax, ay, az) = true ->
  (is_zero (sum_squares (ax, ay, az)) = true ->
   Update6D m gx gy gz ax ay az = (set_Quaternions m nan4, nan4)) /\
  (is_zero (sum_squares (ax, ay, az))
   || is_zero (sum_squares (mx, my, mz)) = true ->
   Update9D m gx gy gz ax ay az mx my mz = (set_Quaternions m nan4, nan4)).
Proof.
  intros Hv. split; intros H.
  - rewrite Update6D_steps. cbv zeta. unfold corrected_rate6. rewrite Hv.
    rewrite integrate_rate_inf; [reflexivity |].
    apply pi_feedback_inf, half_e6_inf, normalise3_underflow, H.
  - rewrite Update9D_steps. cbv zeta. unfold corrected_rate9. rewrite Hv.
    rewrite integrate_rate_inf; [reflexivity |].
    apply pi_feedback_inf.
    apply orb_true_iff in H. destruct H as [H | H].
    + apply half_e9_inf_accel, normalise3_underflow, H.
    + apply half_e9_inf_mag, normalise3_underflow, H.
Qed.

Lemma underflowing_reading_corrupts_witness :
  Update6D m_default zero zero zero zero zero tiny
    = (set_Quaternions m_default nan4, nan4) /\
  Update9D m_default zero zero zero zero zero one tiny tiny zero
    = (set_Quaternions m_default nan4, nan4).
Proof.
  split.
  - apply (proj1 (@underflowing_reading_corrupts m_default zero zero zero
                    zero zero tiny zero zero zero eq_refl)).
    reflexivity.
  - apply (proj2 (@underflowing_reading_corrupts m_default zero zero zero
                    zero zero one tiny tiny zero eq_refl)).
    reflexivity.
Defined.

End EdgesB64.

(** * The fixed point on binary64 *)

Module FixedPointB64.

Import B64.
Local Open Scope ar_scope.

(** Multiplying a [float64] value by 1 gives it back. *)
Lemma mul_one_finite (s : bool) (m : positive) (e : Z) :
  valid (S754_finite s m e) = true ->
  S754_finite s m e * one = S754_finite s m e.
Proof.
  unfold valid, valid_binary, bounded, canonical_mantissa. intros H.
  apply andb_true_iff in H. destruct H as [Hc Hb].
  apply Z.eqb_eq in Hc.
  cbn [fmul arith]. unfold SFmul, one. rewrite xorb_false_r.
  rewrite Pos.mul_comm. simpl Pos.mul.
  unfold binary_round_aux, shr_fexp.
  cbn [Zdigits2 digits2_pos].
  rewrite !Pos2Z.inj_succ.
  set (D := Z.pos (digits2_pos m)) in *.
  match goal with
  | |- context [ (fexp prec emax ?a - ?b)%Z ] =>
      replace (fexp prec emax a - b)%Z with 52%Z
        by (replace a with (D + e)%Z by lia; rewrite Hc; lia)
  end.
  match goal with
  | |- context [shr ?r ?e0 52%Z] =>
      change (shr r e0 52%Z)
        with (Build_shr_record (Z.pos m) false false, (e0 + 52)%Z)
  end.
  cbv beta iota.
  cbn [shr_m loc_of_shr_record round_nearest_even shr_record_of_loc Zdigits2].
  fold D. replace (e + -52 + 52)%Z with e by lia.
  rewrite Hc, Z.sub_diag. cbn [shr shr_m]. rewrite Hb. reflexivity.
Qed.

Lemma mul_one_r (x : t) : valid x = true -> regular x = true -> x * one = x.
Proof.
  intros Hv Hr. destruct x as [s | s | | s m e]; try discriminate Hr.
  - destruct s; reflexivity.
  - apply mul_one_finite, Hv.
Qed.

Lemma eqb_refl_regular (x : t) : regular x = true -> SFeqb x x = true.
Proof.
  intros Hr. destruct x as [s | s | | s m e]; try discriminate Hr.
  - reflexivity.
  - unfold SFeqb, SFcompare.
    rewrite Z.compare_refl. change (Pos.compare_cont Eq m m) with (m ?= m)%positive.
    rewrite Pos.compare_refl. destruct s; reflexivity.
Qed.

Lemma eqb_zero_zero (x y : t) :
  is_zero x = true -> is_zero y = true -> SFeqb x y = true.
Proof. destruct x, y; try discriminate; reflexivity. Qed.

(** Zeros through the operations. *)
Lemma is_zero_regular (x : t) : is_zero x = true -> regular x = true.
Proof. destruct x; try discriminate; reflexivity. Qed.

Lemma regular_neg (x : t) : regular x = true -> regular (- x) = true.
Proof. destruct x; try discriminate; reflexivity. Qed.

Lemma mul_regular_zero (x z : t) :
  regular x = true -> is_zero z = true -> is_zero (x * z) = true.
Proof. destruct x, z; try discriminate; reflexivity. Qed.

Lemma mul_zero_regular (z x : t) :
  is_zero z = true -> regular x = true -> is_zero (z * x) = true.
Proof. destruct x, z; try discriminate; reflexivity. Qed.

Lemma add_zero_zero (x y : t) :
  is_zero x = true -> is_zero y = true -> is_zero (x + y) = true.
Proof.
  destruct x as [s | | |], y as [s' | | |]; try discriminate.
  destruct s, s'; reflexivity.
Qed.

Lemma sub_zero_zero (x y : t) :
  is_zero x = true -> is_zero y = true -> is_zero (x - y) = true.
Proof.
  destruct x as [s | | |], y as [s' | | |]; try discriminate.
  destruct s, s'; reflexivity.
Qed.

Lemma regular_factor (v : t) : regular (f05 * v) = true -> regular v = true.
Proof.
  intros H. destruct v as [s | [] | |]; try reflexivity; discriminate H.
Qed.

Ltac split_zero3 H :=
  unfold zero3 in H;
  apply andb_true_iff in H; destruct H as [H ?];
  apply andb_true_iff in H; destruct H as [? ?].

Ltac join_zero3 := unfold zero3; rewrite !andb_true_iff; repeat split.

Create HintDb zeros.
#[local] Hint Resolve mul_regular_zero mul_zero_regular add_zero_zero sub_zero_zero
  is_zero_regular regular_neg : zeros.

Lemma pi_feedback_zero (m : Mahony t) (g e : vec3 t) :
  integralFB m = (zero, zero, zero) ->
  regular (twoKp m) = true -> regular (twoKi m) = true ->
  regular (f1 / SampleFreq m) = true ->
  zero3 g = true -> zero3 e = true ->
  zero3 (pi_feedback m g e) = true.
Proof.
  unfold integralFB. intros Hi Hp Hk Hf Hg He. injection Hi as Hx Hy Hz.
  destruct g as [[gx gy] gz], e as [[ex ey] ez].
  split_zero3 Hg. split_zero3 He.
  unfold pi_feedback, local_integral, accumulated. rewrite Hx, Hy, Hz.
  destruct (fltb f0 (twoKi m)); join_zero3; auto 8 with zeros.
Qed.

Lemma scale_rate_zero (sampleFreq : t) (g : vec3 t) :
  regular (f05 * (f1 / sampleFreq)) = true -> zero3 g = true ->
  zero3 (scale_rate sampleFreq g) = true.
Proof.
  intros Hf Hg. destruct g as [[gx gy] gz]. split_zero3 Hg.
  unfold scale_rate. join_zero3; auto with zeros.
Qed.

(** The components of a quaternion whose squares sum to 1 are finite. *)
Lemma pinf_or_nan_add_any_l (x y : t) :
  pinf_or_nan x = true -> pinf_or_nan (x + y) = true.
Proof.
  intros H.
  destruct x as [s | s | | s ? ?]; try discriminate H;
    destruct y as [s' | s' | | s' ? ?];
    try destruct s; try discriminate H; try destruct s'; reflexivity.
Qed.

Lemma pinf_or_nan_add_any_r (x y : t) :
  pinf_or_nan y = true -> pinf_or_nan (x + y) = true.
Proof.
  intros H.
  destruct y as [s | s | | s ? ?]; try discriminate H;
    destruct x as [s' | s' | | s' ? ?];
    try destruct s; try discriminate H; try destruct s'; reflexivity.
Qed.

Lemma regular_or_square (x : t) :
  regular x = true \/ pinf_or_nan (x * x) = true.
Proof.
  destruct x as [s | s | | s m e]; [left | right | right | left];
    try reflexivity. destruct s; reflexivity.
Qed.

Lemma regular_of_unit (q : quat t) :
  norm2 q = one ->
  let '(q0, q1, q2, q3) := q in
  regular q0 = true /\ regular q1 = true /\
  regular q2 = true /\ regular q3 = true.
Proof.
  destruct q as [[[q0 q1] q2] q3]. unfold norm2. intros H.
  assert (Hn : pinf_or_nan (q0*q0 + q1*q1 + q2*q2 + q3*q3) = false)
    by (rewrite H; reflexivity).
  repeat split.
  - destruct (regular_or_square q0) as [? | Hs]; [assumption |].
    rewrite pinf_or_nan_add_any_l in Hn; [discriminate Hn |].
    apply pinf_or_nan_add_any_l, pinf_or_nan_add_any_l, Hs.
  - destruct (regular_or_square q1) as [? | Hs]; [assumption |].
    rewrite pinf_or_nan_add_any_l in Hn; [discriminate Hn |].
    apply pinf_or_nan_add_any_l, pinf_or_nan_add_any_r, Hs.
  - destruct (regular_or_square q2) as [? | Hs]; [assumption |].
    rewrite pinf_or_nan_add_any_l in Hn; [discriminate Hn |].
    apply pinf_or_nan_add_any_r, Hs.
  - destruct (regular_or_square q3) as [? | Hs]; [assumption |].
    rewrite pinf_or_nan_add_any_r in Hn by exact Hs. discriminate Hn.
Qed.

(** A component of the derivative step at rate zero. *)
Lemma step_component (x z : t) :
  valid x = true -> regular x = true -> is_zero z = true ->
  (x + z) * (x + z) = x * x /\
  SFeqb ((x + z) * one) x = true.
Proof.
  intros Hv Hx Hz.
  destruct z as [sz | | |]; try discriminate Hz.
  destruct x as [s | | | s m e]; try discriminate Hx.
  - destruct s, sz; split; reflexivity.
  - change (S754_finite s m e + S754_zero sz) with (S754_finite s m e).
    split; [reflexivity |].
    rewrite mul_one_r by assumption. apply eqb_refl_regular, Hx.
Qed.

Lemma integrate_zero_rate (m : Mahony t) (g : vec3 t) :
  valid4 (Quaternions m) = true ->
  norm2 (Quaternions m) = one ->
  regular (f05 * (f1 / SampleFreq m)) = true ->
  zero3 g = true ->
  quat_eqb (integrate_rate m g) (Quaternions m) = true.
Proof.
  intros Hv Hn Hf Hg.
  pose proof (regular_of_unit _ Hn) as Hr.
  pose proof (scale_rate_zero _ _ Hf Hg) as Hs.
  unfold integrate_rate.
  destruct (scale_rate (SampleFreq m) g) as [[hx hy] hz]. split_zero3 Hs.
  destruct (Quaternions m) as [[[q0 q1] q2] q3].
  destruct Hr as (R0 & R1 & R2 & R3).
  unfold valid4 in Hv. rewrite !andb_true_iff in Hv.
  destruct Hv as [[[V0 V1] V2] V3].
  unfold quat_derivative_step.
  assert (Z0 : is_zero (-q1*hx - q2*hy - q3*hz) = true) by auto 8 with zeros.
  assert (Z1 : is_zero (q0*hx + q2*hz - q3*hy) = true) by auto 8 with zeros.
  assert (Z2 : is_zero (q0*hy - q1*hz + q3*hx) = true) by auto 8 with zeros.
  assert (Z3 : is_zero (q0*hz + q1*hy - q2*hx) = true) by auto 8 with zeros.
  destruct (step_component q0 _ V0 R0 Z0) as [S0 E0].
  destruct (step_component q1 _ V1 R1 Z1) as [S1 E1].
  destruct (step_component q2 _ V2 R2 Z2) as [S2 E2].
  destruct (step_component q3 _ V3 R3 Z3) as [S3 E3].
  unfold normalise_quat, norm2. rewrite S0, S1, S2, S3.
  unfold norm2 in Hn. rewrite Hn.
  change (invSqrt one) with one.
  unfold quat_eqb. rewrite E0, E1, E2, E3. reflexivity.
Qed.

(** C5, as it holds on [float64].  On a state a program can hold whose
    quaternion holds [float64] values with a sum of squares that computes to
    exactly 1, with finite gains and a finite common factor
    [0.5 * (1 / sampleFreq)]: when the gyroscope rate is exactly zero and
    the error term computes to exactly zero on every axis, the quaternion
    stored by [Update6D], and by [Update9D], equals under [==], component
    by component, the one stored before, and it is the array returned. *)
Theorem fixed_point_b64 (m : Mahony t) gx gy gz ax ay az mx my mz :
  reachable m ->
  valid4 (Quaternions m) = true ->
  norm2 (Quaternions m) = one ->
  regular (twoKp m) = true -> regular (twoKi m) = true ->
  regular (f05 * (f1 / SampleFreq m)) = true ->
  zero3 (gx, gy, gz) = true ->
  (zero3 (half_e6 (Quaternions m) (ax, ay, az)) = true ->
   let '(m', r) := Update6D m gx gy gz ax ay az in
   quat_eqb (Quaternions m') (Quaternions m) = true /\ r = Quaternions m') /\
  (zero3 (half_e9 (Quaternions m) (ax, ay, az) (mx, my, mz)) = true ->
   let '(m', r) := Update9D m gx gy gz ax ay az mx my mz in
   quat_eqb (Quaternions m') (Quaternions m) = true /\ r = Quaternions m').
Proof.
  intros Hr Hv Hn Hp Hk Hf Hg.
  apply reachable_integralFB in Hr.
  pose proof (regular_factor _ Hf) as Hf1.
  rewrite Update6D_steps, Update9D_steps. cbv zeta.
  cbn [Quaternions set_Quaternions].
  split; intros He; (split; [| reflexivity]);
    apply integrate_zero_rate; try assumption.
  - unfold corrected_rate6. destruct (accel_valid _); [| exact Hg].
    apply pi_feedback_zero; assumption.
  - unfold corrected_rate9. destruct (accel_valid _); [| exact Hg].
    apply pi_feedback_zero; assumption.
Qed.

Lemma fixed_point_b64_witness :
  quat_eqb
    (Quaternions (fst (Update6D m_default zero zero zero zero zero one)))
    (Quaternions m_default) = true /\
  quat_eqb
    (Quaternions
       (fst (Update9D m_default zero zero zero zero zero one one zero zero)))
    (Quaternions m_default) = true.
Proof.
  assert (Hr : reachable m_default) by (unfold m_default; apply reach_new).
  destruct (@fixed_point_b64 m_default zero zero zero zero zero one
              one zero zero Hr eq_refl eq_refl eq_refl eq_refl eq_refl
              eq_refl) as [H6 H9].
  specialize (H6 eq_refl). specialize (H9 eq_refl).
  destruct (Update6D _ _ _ _ _ _ _) as [m6 r6].
  destruct (Update9D _ _ _ _ _ _ _ _ _ _) as [m9 r9].
  split; [apply H6 | apply H9].
Defined.

(** C5 fails as stated on [float64].  The filter [m_default] after
    [Update6D(0, 0, 0.4, 0, 0, 1)] holds a quaternion that is unit within the
    tolerance (its squares sum to 1 + 2^-51), predicts gravity along +Z, and
    has an error term of exactly zero for the reading (0, 0, 1); a call with
    that reading and zero gyroscope rate changes it all the same: the
    normalisation rescales it. *)
Lemma fixed_point_fails_on_rounded_unit :
  let m1 := fst (Update6D m_default zero zero (dec 4 10) zero zero one) in
  let m2 := fst (Update6D m1 zero zero zero zero zero one) in
  reachable m1 /\
  within tol (norm2 (Quaternions m1)) one = true /\
  (let '(vx, vy, vz) := half_v (Quaternions m1) in
   is_zero vx && is_zero vy && SFltb zero vz = true) /\
  zero3 (half_e6 (Quaternions m1) (zero, zero, one)) = true /\
  quat_eqb (Quaternions m2) (Quaternions m1) = false.
Proof.
  cbv zeta. split.
  - apply (reach_call (Call6D zero zero (dec 4 10) zero zero one)).
    unfold m_default. apply reach_new.
  - vm_compute. repeat split; reflexivity.
Qed.

End FixedPointB64.

(** * The unit norm on binary64

    The error of the operations "Normalise quaternion" is made of, from the
    definitions of [SpecFloat]: every operation whose result is a normal
    number returns its exact result within a factor [1 + 2^-52]. *)

Module UnitNormB64.

Import B64.
Local Open Scope Z_scope.

(** ** Digits *)

Lemma digits2_size (p : positive) : digits2_pos p = Pos.size p.
Proof. induction p as [p IH | p IH |]; simpl; rewrite ?IH; reflexivity. Qed.

Lemma digits2_bounds (p : positive) :
  2 ^ (Z.pos (digits2_pos p) - 1) <= Z.pos p < 2 ^ Z.pos (digits2_pos p).
Proof.
  rewrite digits2_size.
  pose proof (Pos.size_gt p) as Hgt. pose proof (Pos.size_le p) as Hle.
  assert (H2 : Z.pos (2 ^ Pos.size p) = 2 ^ Z.pos (Pos.size p))
    by (rewrite Pos2Z.inj_pow; reflexivity).
  split.
  - assert (2 ^ Z.pos (Pos.size p) <= 2 * Z.pos p) by (rewrite <- H2; lia).
    replace (Z.pos (Pos.size p)) with (Z.succ (Z.pos (Pos.size p) - 1)) in H
      by lia.
    rewrite Z.pow_succ_r in H by lia. lia.
  - rewrite <- H2. lia.
Qed.

Lemma digits2_unique (p : positive) (n : Z) :
  2 ^ (n - 1) <= Z.pos p < 2 ^ n -> Z.pos (digits2_pos p) = n.
Proof.
  intros [Hlo Hhi]. pose proof (digits2_bounds p) as [Dlo Dhi].
  set (d := Z.pos (digits2_pos p)) in *.
  assert (0 < d) by (unfold d; lia).
  assert (Hn : 0 < n).
  { destruct (Z_lt_le_dec 0 n) as [|Hn0]; [assumption |].
    exfalso. destruct (Z.eq_dec n 0) as [-> | ?]; simpl in Hhi; [lia |].
    rewrite Z.pow_neg_r in Hhi by lia. lia. }
  destruct (Z_lt_le_dec d n) as [Hlt | Hge].
  - exfalso. assert (2 ^ d <= 2 ^ (n - 1)) by (apply Z.pow_le_mono_r; lia). lia.
  - destruct (Z_lt_le_dec n d) as [Hlt | Hle]; [| lia].
    exfalso. assert (2 ^ n <= 2 ^ (d - 1)) by (apply Z.pow_le_mono_r; lia). lia.
Qed.

(** ** Shifting right *)

Lemma shr_1_m (mrs : shr_record) :
  0 <= shr_m mrs -> shr_m (shr_1 mrs) = shr_m mrs / 2.
Proof.
  destruct mrs as [m r s]. simpl. intros H.
  destruct m as [| p | p]; [reflexivity | | lia].
  destruct p as [p | p |]; simpl shr_m.
  - rewrite Pos2Z.inj_xI. apply Z.div_unique with (r := 1); lia.
  - rewrite Pos2Z.inj_xO. apply Z.div_unique with (r := 0); lia.
  - reflexivity.
Qed.

Lemma iter_pos_nat {A : Type} (f : A -> A) (p : positive) :
  forall x, iter_pos f p x = Nat.iter (Pos.to_nat p) f x.
Proof.
  induction p as [p IH | p IH |]; intros x; simpl iter_pos.
  - rewrite !IH. rewrite Pos2Nat.inj_xI.
    replace (S (2 * Pos.to_nat p))%nat
      with (Pos.to_nat p + (Pos.to_nat p + 1))%nat by lia.
    rewrite !Nat.iter_add. reflexivity.
  - rewrite !IH. rewrite Pos2Nat.inj_xO.
    replace (2 * Pos.to_nat p)%nat with (Pos.to_nat p + Pos.to_nat p)%nat
      by lia.
    rewrite Nat.iter_add. reflexivity.
  - reflexivity.
Qed.

Lemma iter_shr_1_m (n : nat) :
  forall mrs, 0 <= shr_m mrs ->
    shr_m (Nat.iter n shr_1 mrs) = shr_m mrs / 2 ^ Z.of_nat n.
Proof.
  induction n as [|n IH]; intros mrs H.
  - simpl. rewrite Z.div_1_r. reflexivity.
  - rewrite Nat.iter_succ, shr_1_m.
    + rewrite IH by assumption. rewrite Nat2Z.inj_succ, Z.pow_succ_r by lia.
      rewrite Z.div_div by lia. f_equal. lia.
    + rewrite IH by assumption. apply Z.div_pos; lia.
Qed.

Lemma shr_spec (mrs : shr_record) (e k : Z) :
  0 <= shr_m mrs -> 0 <= k ->
  shr_m (fst (shr mrs e k)) = shr_m mrs / 2 ^ k /\ snd (shr mrs e k) = e + k.
Proof.
  intros Hm Hk. unfold shr. destruct k as [| p | p]; [| | lia].
  - simpl. rewrite Z.div_1_r. split; [reflexivity | lia].
  - simpl fst. simpl snd. split; [| reflexivity].
    rewrite iter_pos_nat, iter_shr_1_m by assumption.
    rewrite positive_nat_Z. reflexivity.
Qed.

Lemma round_nearest_even_bounds (m : Z) (l : location) :
  m <= round_nearest_even m l <= m + 1.
Proof.
  unfold round_nearest_even. destruct l as [| []]; try lia.
  destruct (Z.even m); lia.
Qed.

Lemma shr_record_of_loc_m (m : Z) (l : location) :
  shr_m (shr_record_of_loc m l) = m.
Proof. destruct l as [| []]; reflexivity. Qed.

(** ** Rounding a large mantissa to a normal number *)

Lemma fexp_normal (x : Z) : -1021 <= x -> fexp prec emax x = x - 53.
Proof. unfold fexp, emin, prec, emax. lia. Qed.

Lemma binary_round_aux_normal (s : bool) (m : positive) (e : Z) (l : location) :
  let d := Z.pos (digits2_pos m) in
  let k := d - 53 in
  53 <= d -> -1021 <= d + e -> d + e <= 1023 ->
  exists (m' : positive) (e' m1 : Z),
    binary_round_aux prec emax s (Z.pos m) e l = S754_finite s m' e' /\
    Z.pos (digits2_pos m') = 53 /\
    e + k <= e' <= e + k + 1 /\
    Z.pos m / 2 ^ k <= m1 <= Z.pos m / 2 ^ k + 1 /\
    Z.pos m' * 2 ^ (e' - (e + k)) = m1.
Proof.
  intros d k Hd Hlo Hhi.
  pose proof (digits2_bounds m) as [Dlo Dhi]. fold d in Dlo, Dhi.
  unfold binary_round_aux, shr_fexp.
  cbn [Zdigits2]. fold d.
  rewrite fexp_normal by lia.
  replace (d + e - 53 - e) with k by (unfold k; lia).
  assert (Hk : 0 <= k) by (unfold k; lia).
  pose proof (@shr_spec (shr_record_of_loc (Z.pos m) l) e k) as Hs.
  rewrite shr_record_of_loc_m in Hs.
  destruct (Hs ltac:(lia) Hk) as [Hsm Hse]. clear Hs.
  destruct (shr (shr_record_of_loc (Z.pos m) l) e k) as [mrs' e1].
  simpl fst in Hsm. simpl snd in Hse. subst e1.
  set (M := Z.pos m / 2 ^ k) in *.
  assert (HM : 2 ^ 52 <= M < 2 ^ 53).
  { unfold M. split.
    - apply Z.div_le_lower_bound; [lia |].
      rewrite <- Z.pow_add_r by lia. replace (k + 52) with (d - 1) by (unfold k; lia).
      exact Dlo.
    - apply Z.div_lt_upper_bound; [lia |].
      rewrite <- Z.pow_add_r by lia. replace (k + 53) with d by (unfold k; lia).
      exact Dhi. }
  pose proof (round_nearest_even_bounds (shr_m mrs') (loc_of_shr_record mrs'))
    as Hr.
  set (m1 := round_nearest_even (shr_m mrs') (loc_of_shr_record mrs')) in *.
  rewrite Hsm in Hr. clearbody m1. clear Hsm mrs'.
  destruct m1 as [| p1 | p1]; [lia | | lia].
  cbn [Zdigits2].
  destruct (Z_lt_le_dec (Z.pos p1) (2 ^ 53)) as [Hlt | Hge].
  - (* no carry *)
    assert (Hd1 : Z.pos (digits2_pos p1) = 53)
      by (apply digits2_unique; change (53 - 1) with 52; lia).
    rewrite Hd1. rewrite fexp_normal by (unfold k in *; lia).
    replace (53 + (e + k) - 53 - (e + k)) with 0 by lia.
    cbn [shr]. rewrite shr_record_of_loc_m.
    replace (e + k <=? emax - prec) with true
      by (symmetry; apply Z.leb_le; unfold emax, prec, k; lia).
    exists p1, (e + k), (Z.pos p1).
    repeat split; try lia; try assumption.
    rewrite Z.sub_diag. simpl. lia.
  - (* carry: the mantissa rounded up to 2^53 *)
    assert (Hp : Z.pos p1 = 2 ^ 53) by lia.
    assert (Hp1 : p1 = (2 ^ 53)%positive) by (apply Pos2Z.inj; rewrite Hp; reflexivity).
    subst p1.
    change (Z.pos (digits2_pos (2 ^ 53))) with 54.
    rewrite fexp_normal by (unfold k in *; lia).
    replace (54 + (e + k) - 53 - (e + k)) with 1 by lia.
    cbn [shr shr_record_of_loc iter_pos shr_1 fst snd shr_m].
    change (shr_m (shr_1 (shr_record_of_loc (Z.pos (2 ^ 53)) loc_Exact)))
      with (Z.pos (2 ^ 52)).
    replace (e + k + 1 <=? emax - prec) with true
      by (symmetry; apply Z.leb_le; unfold emax, prec, k; lia).
    exists (2 ^ 52)%positive, (e + k + 1), (2 ^ 53).
    repeat split; try lia; try reflexivity.
    replace (e + k + 1 - (e + k)) with 1 by lia. reflexivity.
Qed.

Local Open Scope R_scope.

(** ** Relative closeness of non-negative reals *)




Lemma eps52_pos : 0 < eps52.
Proof. unfold eps52. apply Rinv_0_lt_compat. apply IZR_lt. reflexivity. Qed.

Lemma grow_ge_1 : 1 <= grow.
Proof. unfold grow. pose proof eps52_pos. lra. Qed.

Lemma grow_pow_ge_1 (n : nat) : 1 <= grow ^ n.
Proof. apply pow_R1_Rle, grow_ge_1. Qed.

Lemma close_refl (a : R) : 0 <= a -> close 0 a a.
Proof. intros H. unfold close. simpl. repeat split; lra. Qed.

Lemma close_sym (n : nat) (a b : R) : close n a b -> close n b a.
Proof. unfold close. tauto. Qed.

Lemma close_weaken (n n' : nat) (a b : R) :
  (n <= n')%nat -> close n a b -> close n' a b.
Proof.
  intros Hn (Ha & Hb & Hab & Hba).
  pose proof (Rle_pow grow n n' grow_ge_1 Hn) as Hp.
  pose proof (grow_pow_ge_1 n) as H1n.
  repeat split; try assumption.
  - apply Rle_trans with (1 := Hab). apply Rmult_le_compat_r; assumption.
  - apply Rle_trans with (1 := Hba). apply Rmult_le_compat_r; assumption.
Qed.

Lemma close_trans (j k : nat) (a b c : R) :
  close j a b -> close k b c -> close (j + k) a c.
Proof.
  intros (Ha & Hb & Hab & Hba) (_ & Hc & Hbc & Hcb).
  pose proof (grow_pow_ge_1 j) as Hj. pose proof (grow_pow_ge_1 k) as Hk.
  unfold close. rewrite pow_add. repeat split; try assumption.
  - apply Rle_trans with (1 := Hab). rewrite Rmult_assoc.
    apply Rmult_le_compat_l; lra.
  - apply Rle_trans with (1 := Hcb).
    rewrite (Rmult_comm (grow ^ j)), Rmult_assoc.
    apply Rmult_le_compat_l; lra.
Qed.

Lemma close_mul (j k : nat) (a b c d : R) :
  close j a b -> close k c d -> close (j + k) (a * c) (b * d).
Proof.
  intros (Ha & Hb & Hab & Hba) (Hc & Hd & Hcd & Hdc).
  unfold close. rewrite pow_add. repeat split.
  - apply Rmult_le_pos; assumption.
  - apply Rmult_le_pos; assumption.
  - replace (grow ^ j * grow ^ k * (b * d)) with ((grow ^ j * b) * (grow ^ k * d)) by ring.
    apply Rmult_le_compat; assumption.
  - replace (grow ^ j * grow ^ k * (a * c)) with ((grow ^ j * a) * (grow ^ k * c)) by ring.
    apply Rmult_le_compat; assumption.
Qed.

Lemma close_add (k : nat) (a b c d : R) :
  close k a b -> close k c d -> close k (a + c) (b + d).
Proof.
  intros (Ha & Hb & Hab & Hba) (Hc & Hd & Hcd & Hdc).
  unfold close. rewrite !Rmult_plus_distr_l. repeat split; lra.
Qed.

Lemma close_pos (k : nat) (a b : R) : close k a b -> 0 < a -> 0 < b.
Proof.
  intros (Ha & Hb & Hab & Hba) Hpos.
  destruct Hb as [Hb | <-]; [assumption |]. rewrite Rmult_0_r in Hab. lra.
Qed.

Lemma close_inv (k : nat) (a b : R) :
  0 < a -> close k a b -> close k (/ a) (/ b).
Proof.
  intros Hpos Hc. pose proof (close_pos Hc Hpos) as Hposb.
  destruct Hc as (Ha & Hb & Hab & Hba).
  pose proof (Rinv_0_lt_compat a Hpos) as Hia.
  pose proof (Rinv_0_lt_compat b Hposb) as Hib.
  repeat split; try lra.
  - apply Rmult_le_reg_r with (r := a * b); [apply Rmult_lt_0_compat; lra |].
    replace (/ a * (a * b)) with b by (field; lra).
    replace (grow ^ k * / b * (a * b)) with (grow ^ k * a) by (field; lra).
    assumption.
  - apply Rmult_le_reg_r with (r := a * b); [apply Rmult_lt_0_compat; lra |].
    replace (/ b * (a * b)) with a by (field; lra).
    replace (grow ^ k * / a * (a * b)) with (grow ^ k * b) by (field; lra).
    assumption.
Qed.

Lemma pow_1_plus_le (x : R) (n : nat) :
  0 <= x -> 2 * INR n * x <= 1 -> (1 + x) ^ n <= 1 + 2 * INR n * x.
Proof.
  intros Hx. induction n as [|n IH]; intros Hn.
  - simpl. lra.
  - rewrite S_INR in *. pose proof (pos_INR n) as Hpos.
    assert (Hn' : 2 * INR n * x <= 1) by nra.
    specialize (IH Hn'). simpl pow.
    apply Rle_trans with ((1 + x) * (1 + 2 * INR n * x)).
    + apply Rmult_le_compat_l; lra.
    + nra.
Qed.

Lemma close_one (n : nat) (a : R) :
  close n a 1 -> Rabs (a - 1) <= grow ^ n - 1.
Proof.
  intros (Ha & _ & Hab & Hba). rewrite Rmult_1_r in Hab.
  pose proof (grow_pow_ge_1 n) as Hn.
  apply Rabs_le. split; [| lra].
  assert (1 <= grow ^ n * a) by lra.
  nra.
Qed.

Lemma grow_pow_14 : grow ^ 14 - 1 <= / 10 ^ 14.
Proof.
  unfold grow. pose proof eps52_pos as Hu.
  assert (Hb : 28 * eps52 <= / 10 ^ 14).
  { unfold eps52.
    apply Rmult_le_reg_r with (r := IZR (2 ^ 52) * 10 ^ 14).
    - apply Rmult_lt_0_compat; [apply IZR_lt; reflexivity | lra].
    - replace (28 * / IZR (2 ^ 52) * (IZR (2 ^ 52) * 10 ^ 14)) with (28 * 10 ^ 14).
      2:{ field. apply not_0_IZR. discriminate. }
      replace (/ 10 ^ 14 * (IZR (2 ^ 52) * 10 ^ 14)) with (IZR (2 ^ 52)).
      2:{ field. }
      replace (28 * 10 ^ 14) with (IZR (28 * 10 ^ 14)).
      2:{ rewrite mult_IZR. f_equal. exact (eq_sym (pow_IZR 10 14)). }
      apply IZR_le. vm_compute. discriminate. }
  pose proof (@pow_1_plus_le eps52 14 ltac:(lra)) as Hp.
  change (INR 14) with (INR 14) in Hp.
  assert (H14 : INR 14 = 14) by (simpl; lra).
  rewrite H14 in Hp.
  assert (2 * 14 * eps52 <= 1) by lra.
  specialize (Hp H). lra.
Qed.

(** ** The value of a mantissa and exponent pair *)


Lemma two_neq_0 : 2 <> 0.
Proof. lra. Qed.

Lemma IZR_pow2 (k : Z) : (0 <= k)%Z -> IZR (2 ^ k) = powerRZ 2 k.
Proof.
  intros Hk. destruct k as [| p | p]; [reflexivity | | lia].
  simpl powerRZ. rewrite <- (positive_nat_Z p) at 1.
  rewrite <- pow_IZR. reflexivity.
Qed.

Lemma F2R_shift (m e k : Z) :
  (0 <= k)%Z -> F2R (m * 2 ^ k) e = F2R m (e + k).
Proof.
  intros Hk. unfold F2R. rewrite mult_IZR, IZR_pow2 by assumption.
  rewrite (powerRZ_add 2 e k two_neq_0). ring.
Qed.

Lemma F2R_le (m m' e : Z) : (m <= m')%Z -> F2R m e <= F2R m' e.
Proof.
  intros H. unfold F2R. apply Rmult_le_compat_r.
  - left. apply powerRZ_lt. lra.
  - apply IZR_le. assumption.
Qed.

Lemma F2R_pos (m e : Z) : (0 < m)%Z -> 0 < F2R m e.
Proof.
  intros H. unfold F2R. apply Rmult_lt_0_compat.
  - apply IZR_lt. assumption.
  - apply powerRZ_lt. lra.
Qed.

Lemma F2R_mul (m1 e1 m2 e2 : Z) :
  F2R (m1 * m2) (e1 + e2) = F2R m1 e1 * F2R m2 e2.
Proof.
  unfold F2R. rewrite mult_IZR, (powerRZ_add 2 e1 e2 two_neq_0). ring.
Qed.

(** A mantissa of at least 53 bits increased by at most one unit stays
    within a factor [1 + 2^-52]. *)
Lemma close_succ (M m1 : Z) (e : Z) (X : R) :
  (2 ^ 52 <= M)%Z -> (M <= m1 <= M + 1)%Z ->
  F2R M e <= X <= F2R (M + 1) e ->
  close 1 (F2R m1 e) X.
Proof.
  intros HM Hm1 HX. unfold F2R in *.
  assert (HP : 0 < powerRZ 2 e) by (apply powerRZ_lt; lra).
  set (P := powerRZ 2 e) in *.
  rewrite plus_IZR in HX.
  assert (Ha : IZR (2 ^ 52) <= IZR M) by (apply IZR_le; assumption).
  assert (Hb1 : IZR M <= IZR m1) by (apply IZR_le; lia).
  assert (Hb2 : IZR m1 <= IZR M + 1)
    by (rewrite <- (plus_IZR M 1); apply IZR_le; lia).
  assert (H52 : 0 < IZR (2 ^ 52)) by (apply IZR_lt; reflexivity).
  assert (Hu : 1 <= eps52 * IZR M).
  { unfold eps52. apply Rmult_le_reg_l with (r := IZR (2 ^ 52)); [assumption |].
    rewrite <- Rmult_assoc, Rinv_r by lra. lra. }
  set (a := IZR M) in *. set (b := IZR m1) in *.
  pose proof eps52_pos as Hup.
  unfold close, grow. simpl pow. rewrite Rmult_1_r.
  assert (HuP : P <= eps52 * a * P).
  { replace P with (1 * P) at 1 by ring. apply Rmult_le_compat_r; lra. }
  assert (0 <= a) by lra. assert (0 <= b) by lra.
  assert (Hbp : b * P <= (a + 1) * P) by (apply Rmult_le_compat_r; lra).
  assert (Hap : a * P <= b * P) by (apply Rmult_le_compat_r; lra).
  assert (0 <= a * P) by (apply Rmult_le_pos; lra).
  assert (0 <= eps52 * X).
  { apply Rmult_le_pos; lra. }
  assert (eps52 * (a * P) <= eps52 * X) by (apply Rmult_le_compat_l; lra).
  assert (eps52 * (a * P) <= eps52 * (b * P)) by (apply Rmult_le_compat_l; lra).
  repeat split; try lra.
Qed.

(** ** Values of finite numbers and the error of one rounding *)




Lemma mag_nonneg (x : spec_float) : 0 <= mag x.
Proof.
  destruct x; simpl; try lra. left. apply F2R_pos. reflexivity.
Qed.

Lemma normal_in_mag_pos lo hi x : normal_in lo hi x -> 0 < mag x.
Proof. destruct x; simpl; try tauto. intros _. apply F2R_pos. reflexivity. Qed.

Lemma normal_in_weaken lo hi lo' hi' x :
  (lo' <= lo)%Z -> (hi <= hi')%Z -> normal_in lo hi x -> normal_in lo' hi' x.
Proof. destruct x; simpl; try tauto. intros ? ? [? ?]. split; [assumption | lia]. Qed.

Lemma round_close (s : bool) (m : positive) (e : Z) (l : location) :
  let d := Z.pos (digits2_pos m) in
  (53 <= d)%Z -> (-1021 <= d + e)%Z -> (d + e <= 1023)%Z ->
  exists (m' : positive) (e' : Z),
    binary_round_aux prec emax s (Z.pos m) e l = S754_finite s m' e' /\
    Z.pos (digits2_pos m') = 53%Z /\
    (d + e - 53 <= e' <= d + e - 52)%Z /\
    close 1 (F2R (Z.pos m') e') (F2R (Z.pos m) e).
Proof.
  intros d Hd Hlo Hhi.
  destruct (@binary_round_aux_normal s m e l Hd Hlo Hhi)
    as (m' & e' & m1 & Heq & Hdig & He' & Hm1 & Hval).
  fold d in He', Hm1, Hval.
  set (k := (d - 53)%Z) in *.
  pose proof (digits2_bounds m) as [Dlo Dhi]. fold d in Dlo, Dhi.
  assert (Hk : (0 <= k)%Z) by (unfold k; lia).
  assert (H2k : (0 < 2 ^ k)%Z) by (apply Z.pow_pos_nonneg; lia).
  set (M := (Z.pos m / 2 ^ k)%Z) in *.
  assert (HM : (2 ^ 52 <= M)%Z).
  { unfold M. apply Z.div_le_lower_bound; [lia |].
    rewrite <- Z.pow_add_r by lia.
    replace (k + 52)%Z with (d - 1)%Z by (unfold k; lia). exact Dlo. }
  assert (HMlo : (M * 2 ^ k <= Z.pos m)%Z).
  { unfold M. rewrite Z.mul_comm. apply Z.mul_div_le. lia. }
  assert (HMhi : (Z.pos m <= (M + 1) * 2 ^ k)%Z).
  { unfold M. pose proof (Z.mul_succ_div_gt (Z.pos m) (2 ^ k) H2k). lia. }
  exists m', e'.
  split; [assumption |]. split; [assumption |]. split; [unfold k in *; lia |].
  replace (F2R (Z.pos m') e') with (F2R m1 (e + k)).
  2:{ rewrite <- Hval, F2R_shift by lia. f_equal. lia. }
  apply close_succ with (M := M); try assumption.
  rewrite <- !F2R_shift by lia. split; apply F2R_le; assumption.
Qed.

(** ** Multiplication of normal numbers *)

Lemma digits2_in (p : positive) (lo hi : Z) :
  (0 <= lo)%Z -> (2 ^ lo <= Z.pos p < 2 ^ hi)%Z ->
  (lo < Z.pos (digits2_pos p) <= hi)%Z.
Proof.
  intros Hlo [H1 H2]. pose proof (digits2_bounds p) as [Dlo Dhi].
  set (d := Z.pos (digits2_pos p)) in *.
  assert (0 < d)%Z by (unfold d; lia).
  split.
  - apply (Z.pow_lt_mono_r_iff 2); lia.
  - destruct (Z_lt_le_dec hi d) as [Hlt | ?]; [| lia].
    exfalso.
    assert (hi <= d - 1)%Z by lia.
    assert (0 <= hi)%Z.
    { destruct (Z_lt_le_dec hi 0); [| assumption].
      rewrite (Z.pow_neg_r 2 hi) in H2 by assumption. lia. }
    assert (2 ^ hi <= 2 ^ (d - 1))%Z by (apply Z.pow_le_mono_r; lia).
    lia.
Qed.

Lemma normal_bounds (m : positive) :
  Z.pos (digits2_pos m) = 53%Z -> (2 ^ 52 <= Z.pos m < 2 ^ 53)%Z.
Proof.
  intros H. pose proof (digits2_bounds m) as HD. rewrite H in HD. exact HD.
Qed.

Lemma mul_normal (x y : spec_float) (lx hx ly hy : Z) :
  normal_in lx hx x -> normal_in ly hy y ->
  (-1126 <= lx + ly)%Z -> (hx + hy <= 917)%Z ->
  normal_in (lx + ly + 52) (hx + hy + 54) (SFmul prec emax x y) /\
  sign_of (SFmul prec emax x y) = xorb (sign_of x) (sign_of y) /\
  close 1 (mag (SFmul prec emax x y)) (mag x * mag y).
Proof.
  destruct x as [| | | sx mx ex]; simpl; try tauto.
  destruct y as [| | | sy my ey]; simpl; try tauto.
  intros [Hdx Hex] [Hdy Hey] Hlo Hhi.
  pose proof (normal_bounds _ Hdx) as Bx. pose proof (normal_bounds _ Hdy) as By.
  assert (Hd : (104 < Z.pos (digits2_pos (mx * my)) <= 106)%Z).
  { apply digits2_in; [lia |]. rewrite Pos2Z.inj_mul.
    change (2 ^ 104)%Z with (2 ^ 52 * 2 ^ 52)%Z.
    change (2 ^ 106)%Z with (2 ^ 53 * 2 ^ 53)%Z.
    split; [apply Z.mul_le_mono_nonneg | apply Z.mul_lt_mono_nonneg]; lia. }
  destruct (@round_close (xorb sx sy) (mx * my) (ex + ey) loc_Exact)
    as (m' & e' & Heq & Hdig & He' & Hc); try lia.
  unfold SFmul. rewrite Heq. simpl.
  split; [split; [assumption | lia] |]. split; [reflexivity |].
  rewrite <- F2R_mul, <- Pos2Z.inj_mul. exact Hc.
Qed.

Lemma close_between (n : nat) (a b c : R) :
  close n a c -> a <= b <= c -> close n a b.
Proof.
  intros (Ha & Hc & Hac & Hca) [Hab Hbc].
  pose proof (grow_pow_ge_1 n) as Hn.
  unfold close. repeat split; try lra.
  apply Rle_trans with (1 * b); [lra |].
  apply Rmult_le_compat_r; lra.
Qed.

Lemma close_zero (n : nat) : close n 0 0.
Proof. unfold close. rewrite Rmult_0_r. repeat split; lra. Qed.

Lemma close_next (q e : Z) :
  (2 ^ 52 <= q)%Z -> close 1 (F2R q e) (F2R (q + 1) e).
Proof.
  intros Hq. apply close_succ with (M := q); [assumption | lia |].
  split; [apply F2R_le; lia | lra].
Qed.

(** ** Addition of positive normal numbers *)



Lemma shl_align_val (mx : positive) (ex ez : Z) :
  (ez <= ex)%Z ->
  Z.pos (fst (shl_align mx ex ez)) = (Z.pos mx * 2 ^ (ex - ez))%Z.
Proof.
  intros H. unfold shl_align.
  destruct (ez - ex)%Z as [| p | p] eqn:Hd; simpl fst.
  - replace (ex - ez)%Z with 0%Z by lia. simpl. lia.
  - lia.
  - change (Pos.iter xO mx p) with (shift_pos p mx).
    rewrite shift_pos_correct, Z.pow_pos_fold.
    replace (ex - ez)%Z with (Z.pos p) by lia. lia.
Qed.

Lemma add_normal (x y : spec_float) (lo hi : Z) :
  normal_in lo hi x -> normal_in lo hi y ->
  sign_of x = false -> sign_of y = false ->
  (-1074 <= lo)%Z -> (hi <= 968)%Z ->
  normal_in lo (hi + 2) (SFadd prec emax x y) /\
  sign_of (SFadd prec emax x y) = false /\
  close 1 (mag (SFadd prec emax x y)) (mag x + mag y).
Proof.
  destruct x as [| | | sx mx ex]; simpl; try tauto.
  destruct y as [| | | sy my ey]; simpl; try tauto.
  intros [Hdx Hex] [Hdy Hey] -> -> Hlo Hhi.
  pose proof (normal_bounds _ Hdx) as Bx. pose proof (normal_bounds _ Hdy) as By.
  set (ez := Z.min ex ey).
  assert (Hzx : (ez <= ex)%Z) by (unfold ez; lia).
  assert (Hzy : (ez <= ey)%Z) by (unfold ez; lia).
  pose proof (shl_align_val mx Hzx) as Ha.
  pose proof (shl_align_val my Hzy) as Hb.
  set (a := fst (shl_align mx ex ez)) in *.
  set (b := fst (shl_align my ey ez)) in *.
  cbn [cond_Zopp Z.add binary_normalize].
  set (J := Z.max (ex - ez) (ey - ez)).
  assert (HJ : (0 <= J)%Z) by (unfold J; lia).
  assert (Hsum : (2 ^ (52 + J) <= Z.pos (a + b) < 2 ^ (54 + J))%Z).
  { rewrite Pos2Z.inj_add, Ha, Hb, !Z.pow_add_r by lia.
    assert (HA : (0 < 2 ^ (ex - ez) <= 2 ^ J)%Z).
    { split; [apply Z.pow_pos_nonneg; lia | apply Z.pow_le_mono_r; unfold J; lia]. }
    assert (HB : (0 < 2 ^ (ey - ez) <= 2 ^ J)%Z).
    { split; [apply Z.pow_pos_nonneg; lia | apply Z.pow_le_mono_r; unfold J; lia]. }
    assert (HC : (2 ^ (ex - ez) = 2 ^ J \/ 2 ^ (ey - ez) = 2 ^ J)%Z).
    { unfold J. destruct (Z.max_spec (ex - ez) (ey - ez)) as [[_ ->] | [_ ->]];
        [right | left]; reflexivity. }
    set (A := (2 ^ (ex - ez))%Z) in *. set (B := (2 ^ (ey - ez))%Z) in *.
    set (C := (2 ^ J)%Z) in *.
    change (2 ^ 54)%Z with (2 * 2 ^ 53)%Z.
    destruct HC as [HC | HC]; nia. }
  assert (Hd : (52 + J < Z.pos (digits2_pos (a + b)) <= 54 + J)%Z)
    by (apply digits2_in; [lia | exact Hsum]).
  set (d := Z.pos (digits2_pos (a + b))) in *.
  assert (HJz : (J + ez = Z.max ex ey)%Z) by (unfold J, ez; lia).
  unfold binary_round. fold d.
  rewrite fexp_normal by lia.
  assert (Hal : shl_align (a + b) ez (d + ez - 53) = ((a + b)%positive, ez)).
  { unfold shl_align. destruct (d + ez - 53 - ez)%Z eqn:Hq; try reflexivity. lia. }
  rewrite Hal.
  destruct (@round_close false (a + b) ez loc_Exact)
    as (m' & e' & Heq & Hdig & He' & Hc); fold d; try lia.
  rewrite Heq. simpl.
  split; [split; [assumption | fold d in He'; lia] |]. split; [reflexivity |].
  replace (F2R (Z.pos mx) ex + F2R (Z.pos my) ey) with (F2R (Z.pos (a + b)) ez);
    [exact Hc |].
  rewrite Pos2Z.inj_add, Ha, Hb. unfold F2R at 1. rewrite plus_IZR.
  rewrite Rmult_plus_distr_r. fold (F2R (Z.pos mx * 2 ^ (ex - ez)) ez).
  fold (F2R (Z.pos my * 2 ^ (ey - ez)) ez).
  rewrite !F2R_shift by lia. f_equal; f_equal; lia.
Qed.

Lemma add_pn (x y : spec_float) (lo hi : Z) :
  pn lo hi x -> pn lo hi y -> (-1074 <= lo)%Z -> (hi <= 968)%Z ->
  pn lo (hi + 2) (SFadd prec emax x y) /\
  close 1 (mag (SFadd prec emax x y)) (mag x + mag y).
Proof.
  intros [-> | [Hx Sx]] [-> | [Hy Sy]] Hlo Hhi.
  - split; [left; reflexivity |]. simpl. rewrite Rplus_0_r. apply close_zero.
  - destruct y as [| | | sy my ey]; try (simpl in Hy; tauto).
    split.
    + right. split; [| assumption].
      apply normal_in_weaken with (3 := Hy); lia.
    + simpl SFadd. rewrite Rplus_0_l. apply close_weaken with (n := 0%nat); [lia |].
      apply close_refl, mag_nonneg.
  - destruct x as [| | | sx mx ex]; try (simpl in Hx; tauto).
    split.
    + right. split; [| assumption].
      apply normal_in_weaken with (3 := Hx); lia.
    + simpl SFadd. rewrite Rplus_0_r. apply close_weaken with (n := 0%nat); [lia |].
      apply close_refl, mag_nonneg.
  - destruct (@add_normal x y lo hi Hx Hy Sx Sy Hlo Hhi) as (Hn & Hs & Hc).
    split; [right; split; assumption | assumption].
Qed.

(** ** Square root of a positive normal number *)

Lemma sqrt_normal (x : spec_float) (lo hi : Z) :
  normal_in lo hi x -> sign_of x = false ->
  (-1000 <= lo)%Z -> (hi <= 1000)%Z ->
  normal_in (lo / 2 - 26) (hi / 2 - 25) (SFsqrt prec emax x) /\
  sign_of (SFsqrt prec emax x) = false /\
  close 4 (mag (SFsqrt prec emax x) * mag (SFsqrt prec emax x)) (mag x).
Proof.
  destruct x as [| | | sx m e]; cbn [normal_in]; try tauto.
  intros [Hd He] Hs Hlo Hhi. simpl in Hs. subst sx.
  pose proof (normal_bounds _ Hd) as Bm.
  unfold SFsqrt, SFsqrt_core_binary. cbn [Zdigits2]. rewrite Hd.
  rewrite !Z.div2_div.
  set (E := (e / 2)%Z).
  assert (HE : (e = 2 * E + e mod 2)%Z) by (unfold E; apply Z.div_mod; lia).
  pose proof (Z.mod_pos_bound e 2 ltac:(lia)) as Hb.
  set (b := (e mod 2)%Z) in *.
  replace ((53 + e + 1) / 2)%Z with (E + 27)%Z.
  2:{ apply Z.div_unique with (r := b); lia. }
  assert (HElo : (lo / 2 <= E)%Z) by (unfold E; apply Z.div_le_mono; lia).
  assert (HEhi : (E <= hi / 2)%Z) by (unfold E; apply Z.div_le_mono; lia).
  assert (Hlo2 : (-500 <= lo / 2)%Z) by (apply Z.div_le_lower_bound; lia).
  assert (Hhi2 : (hi / 2 <= 500)%Z) by (apply Z.div_le_upper_bound; lia).
  rewrite fexp_normal by lia.
  replace (Z.min (E + 27 - 53) E) with (E - 26)%Z by lia.
  replace (e - 2 * (E - 26))%Z with (b + 52)%Z by lia.
  assert (Hsh : match (b + 52)%Z with
                | Z.pos _ => Z.shiftl (Z.pos m) (b + 52)
                | 0%Z => Z.pos m
                | Z.neg _ => 0%Z
                end = (Z.pos m * 2 ^ (b + 52))%Z).
  { destruct (b + 52)%Z eqn:Hq; try lia.
    rewrite <- Hq. apply Z.shiftl_mul_pow2. lia. }
  rewrite Hsh. clear Hsh.
  set (m' := (Z.pos m * 2 ^ (b + 52))%Z).
  assert (Hm' : (2 ^ 104 <= m' < 2 ^ 106)%Z).
  { unfold m'. assert (Hc : (b = 0 \/ b = 1)%Z) by lia.
    destruct Hc as [-> | ->]; simpl Z.add;
      [change (2 ^ 52)%Z with 4503599627370496%Z in *
      |change (2 ^ 53)%Z with 9007199254740992%Z in *]; lia. }
  pose proof (Z.sqrtrem_spec m' ltac:(lia)) as Hsq.
  destruct (Z.sqrtrem m') as [q r]. destruct Hsq as [Hqr Hr].
  assert (Hq : (2 ^ 52 <= q < 2 ^ 53)%Z).
  { change (2 ^ 104)%Z with (2 ^ 52 * 2 ^ 52)%Z in Hm'.
    change (2 ^ 106)%Z with (2 ^ 53 * 2 ^ 53)%Z in Hm'.
    assert (0 <= q)%Z by lia. split; nia. }
  destruct q as [| qp | qp]; try lia.
  assert (Hdq : Z.pos (digits2_pos qp) = 53%Z)
    by (apply digits2_unique; change (53 - 1)%Z with 52%Z; lia).
  match goal with
  | |- context [binary_round_aux _ _ _ _ _ ?l] => set (loc := l)
  end.
  destruct (@round_close false qp (E - 26) loc)
    as (m2 & e2 & Heq & Hdig & He2 & Hc); rewrite ?Hdq; try lia.
  rewrite Heq. cbn [normal_in sign_of mag]. rewrite Hdq in He2.
  split; [split; [assumption | lia] |]. split; [reflexivity |].
  change 4%nat with (2 + 2)%nat.
  apply close_trans with (b := F2R (Z.pos qp) (E - 26) * F2R (Z.pos qp) (E - 26)).
  - change 2%nat with (1 + 1)%nat. apply close_mul; assumption.
  - assert (Hx : F2R (Z.pos m) e = F2R m' (E - 26 + (E - 26))).
    { unfold m'. rewrite F2R_shift by lia. f_equal. lia. }
    rewrite Hx, <- !F2R_mul.
    apply close_between
      with (c := F2R ((Z.pos qp + 1) * (Z.pos qp + 1)) (E - 26 + (E - 26))).
    + rewrite !F2R_mul. change 2%nat with (1 + 1)%nat.
      apply close_mul; apply close_next; lia.
    + split; apply F2R_le; nia.
Qed.

(** ** Reciprocal of a positive normal number *)

Lemma inv_normal (y : spec_float) (lo hi : Z) :
  normal_in lo hi y -> sign_of y = false ->
  (-900 <= lo)%Z -> (hi <= 900)%Z ->
  normal_in (- 105 - hi) (- 103 - lo) (SFdiv prec emax one y) /\
  sign_of (SFdiv prec emax one y) = false /\
  close 2 (mag (SFdiv prec emax one y)) (/ mag y).
Proof.
  destruct y as [| | | sy my ey]; cbn [normal_in]; try tauto.
  intros [Hd He] Hs Hlo Hhi. simpl in Hs. subst sy.
  pose proof (normal_bounds _ Hd) as Bm.
  unfold SFdiv, one, SFdiv_core_binary. cbn [Zdigits2 xorb]. rewrite Hd.
  change (Z.pos (digits2_pos 4503599627370496)) with 53%Z.
  replace (53 + -52 - (53 + ey))%Z with (- 52 - ey)%Z by lia.
  rewrite fexp_normal by lia.
  replace (Z.min (- 52 - ey - 53) (- 52 - ey)) with (- 105 - ey)%Z by lia.
  replace (- 52 - ey - (- 105 - ey))%Z with 53%Z by lia.
  change (Z.shiftl 4503599627370496 53) with (2 ^ 105)%Z.
  pose proof (Z_div_mod (2 ^ 105) (Z.pos my) ltac:(lia)) as Hdm.
  destruct (Z.div_eucl (2 ^ 105) (Z.pos my)) as [q r]. destruct Hdm as [Hqr Hr].
  assert (Hq : (2 ^ 52 <= q < 2 ^ 54)%Z).
  { change (2 ^ 105)%Z with (2 ^ 52 * 2 ^ 53)%Z in Hqr.
    change (2 ^ 54)%Z with (2 * 2 ^ 53)%Z.
    set (P52 := (2 ^ 52)%Z) in *. set (P53 := (2 ^ 53)%Z) in *.
    assert (0 < P52)%Z by (unfold P52; lia).
    assert (P53 = 2 * P52)%Z by reflexivity.
    split; nia. }
  destruct q as [| qp | qp]; try lia.
  assert (Hdq : (52 < Z.pos (digits2_pos qp) <= 54)%Z)
    by (apply digits2_in; [lia | exact Hq]).
  match goal with
  | |- context [binary_round_aux _ _ _ _ _ ?l] => set (loc := l)
  end.
  destruct (@round_close false qp (- 105 - ey) loc)
    as (m2 & e2 & Heq & Hdig & He2 & Hc); try lia.
  rewrite Heq. cbn [normal_in sign_of mag].
  split; [split; [assumption | lia] |]. split; [reflexivity |].
  change 2%nat with (1 + 1)%nat.
  apply close_trans with (b := F2R (Z.pos qp) (- 105 - ey)); [assumption |].
  assert (Hy : 0 < F2R (Z.pos my) ey) by (apply F2R_pos; reflexivity).
  assert (Hone : F2R (2 ^ 105) (- 105) = 1).
  { unfold F2R. rewrite IZR_pow2 by lia.
    rewrite <- (powerRZ_add 2 105 (- 105) two_neq_0). reflexivity. }
  assert (Hl : F2R (Z.pos qp) (- 105 - ey) * F2R (Z.pos my) ey <= 1).
  { rewrite <- F2R_mul, <- Hone.
    replace (- 105 - ey + ey)%Z with (- 105)%Z by lia. apply F2R_le. lia. }
  assert (Hu : 1 <= F2R (Z.pos qp + 1) (- 105 - ey) * F2R (Z.pos my) ey).
  { rewrite <- F2R_mul, <- Hone.
    replace (- 105 - ey + ey)%Z with (- 105)%Z by lia. apply F2R_le. lia. }
  apply close_between with (c := F2R (Z.pos qp + 1) (- 105 - ey)).
  - apply close_next. lia.
  - set (Y := F2R (Z.pos my) ey) in *. split.
    + apply Rmult_le_reg_r with (r := Y); [assumption |].
      rewrite Rinv_l by lra. assumption.
    + apply Rmult_le_reg_r with (r := Y); [assumption |].
      rewrite Rinv_l by lra. assumption.
Qed.

(** ** The normalisation of a quaternion of moderate components *)

Lemma B2R_sq (x : t) : B2R x * B2R x = mag x * mag x.
Proof.
  destruct x as [| | | [] m e]; cbn [B2R mag cond_Zopp]; try reflexivity.
  unfold F2R. change (- Z.pos m)%Z with (Z.opp (Z.pos m)).
  rewrite opp_IZR. ring.
Qed.

Lemma pn_weaken (lo hi lo' hi' : Z) (x : t) :
  (lo' <= lo)%Z -> (hi <= hi')%Z -> pn lo hi x -> pn lo' hi' x.
Proof.
  intros Hlo Hhi [-> | [Hn Hs]]; [left; reflexivity | right].
  split; [| assumption]. apply normal_in_weaken with (3 := Hn); assumption.
Qed.

Lemma moderate_cases (x : t) :
  moderate x = true ->
  (exists s, x = S754_zero s) \/ normal_in (-452) 347 x.
Proof.
  destruct x as [s | | | s m e]; cbn [moderate]; try discriminate.
  - intros _. left. exists s. reflexivity.
  - intros H. right.
    apply andb_true_iff in H. destruct H as [H H3].
    apply andb_true_iff in H. destruct H as [H1 H2].
    apply Z.eqb_eq in H1. apply Z.leb_le in H2. apply Z.leb_le in H3.
    cbn [normal_in]. split; [assumption | lia].
Qed.

Lemma sq_moderate (x : t) :
  moderate x = true ->
  pn (-852) 748 (SFmul prec emax x x) /\
  close 1 (mag (SFmul prec emax x x)) (mag x * mag x).
Proof.
  intros H. destruct (@moderate_cases x H) as [[s ->] | Hn].
  - split; [left; destruct s; reflexivity |].
    cbn [SFmul mag]. rewrite Rmult_0_r. apply close_zero.
  - destruct (@mul_normal x x (-452) 347 (-452) 347 Hn Hn) as (Hr & Hs & Hc);
      try lia.
    split; [| assumption]. right. split.
    + apply normal_in_weaken with (3 := Hr); lia.
    + rewrite Hs. apply xorb_nilpotent.
Qed.

Lemma normal_in_regular (lo hi : Z) (x : t) :
  normal_in lo hi x -> regular x = true.
Proof. destruct x; cbn [normal_in]; [tauto | tauto | tauto | reflexivity]. Qed.

Lemma scale_moderate (x r : t) :
  moderate x = true -> normal_in (-457) 349 r ->
  regular (SFmul prec emax x r) = true /\
  close 1 (mag (SFmul prec emax x r)) (mag x * mag r).
Proof.
  intros H Hr. destruct (@moderate_cases x H) as [[s ->] | Hn].
  - destruct r as [| | | sr mr er]; cbn [normal_in] in Hr; try tauto.
    split; [reflexivity |].
    cbn [SFmul mag]. rewrite Rmult_0_l. apply close_zero.
  - destruct (@mul_normal x r (-452) 347 (-457) 349 Hn Hr) as (Hp & _ & Hc);
      try lia.
    split; [| assumption]. apply normal_in_regular with (1 := Hp).
Qed.

Lemma norm2_unfold (q0 q1 q2 q3 : t) :
  norm2 (q0, q1, q2, q3) =
  SFadd prec emax
    (SFadd prec emax
       (SFadd prec emax (SFmul prec emax q0 q0) (SFmul prec emax q1 q1))
       (SFmul prec emax q2 q2))
    (SFmul prec emax q3 q3).
Proof. reflexivity. Qed.

Lemma normalise_quat_unfold (q0 q1 q2 q3 : t) :
  normalise_quat (q0, q1, q2, q3) =
  let recipNorm :=
    SFdiv prec emax one (SFsqrt prec emax (norm2 (q0, q1, q2, q3))) in
  (SFmul prec emax q0 recipNorm, SFmul prec emax q1 recipNorm,
   SFmul prec emax q2 recipNorm, SFmul prec emax q3 recipNorm).
Proof. reflexivity. Qed.

Lemma norm2_moderate (q0 q1 q2 q3 : t) :
  moderate q0 = true -> moderate q1 = true ->
  moderate q2 = true -> moderate q3 = true ->
  pn (-852) 754 (norm2 (q0, q1, q2, q3)) /\
  close 4 (mag (norm2 (q0, q1, q2, q3)))
    (mag q0 * mag q0 + mag q1 * mag q1 + mag q2 * mag q2 + mag q3 * mag q3).
Proof.
  intros M0 M1 M2 M3. rewrite norm2_unfold.
  destruct (@sq_moderate q0 M0) as [P0 C0]. destruct (@sq_moderate q1 M1) as [P1 C1].
  destruct (@sq_moderate q2 M2) as [P2 C2]. destruct (@sq_moderate q3 M3) as [P3 C3].
  set (s0 := SFmul prec emax q0 q0) in *. set (s1 := SFmul prec emax q1 q1) in *.
  set (s2 := SFmul prec emax q2 q2) in *. set (s3 := SFmul prec emax q3 q3) in *.
  destruct (@add_pn s0 s1 (-852) 748 P0 P1) as [Pa Ca]; try lia.
  set (a := SFadd prec emax s0 s1) in *.
  destruct (@add_pn a s2 (-852) 750 Pa) as [Pb Cb]; try lia.
  { apply pn_weaken with (3 := P2); lia. }
  set (b := SFadd prec emax a s2) in *.
  destruct (@add_pn b s3 (-852) 752 Pb) as [Pc Cc]; try lia.
  { apply pn_weaken with (3 := P3); lia. }
  split; [exact Pc |].
  assert (Ka : close 2 (mag a) (mag q0 * mag q0 + mag q1 * mag q1)).
  { change 2%nat with (1 + 1)%nat. apply close_trans with (1 := Ca).
    apply close_add; assumption. }
  assert (Kb : close 3 (mag b)
                 (mag q0 * mag q0 + mag q1 * mag q1 + mag q2 * mag q2)).
  { change 3%nat with (1 + 2)%nat. apply close_trans with (1 := Cb).
    apply close_add; [assumption |].
    apply close_weaken with (n := 1%nat); [lia | assumption]. }
  change 4%nat with (1 + 3)%nat. apply close_trans with (1 := Cc).
  apply close_add; [assumption |].
  apply close_weaken with (n := 1%nat); [lia | assumption].
Qed.

Lemma moderate_mag_pos (x : t) :
  moderate x = true -> is_zero x = false -> 0 < mag x.
Proof.
  intros H Hz. destruct (@moderate_cases x H) as [[s ->] | Hn].
  - discriminate Hz.
  - apply normal_in_mag_pos with (1 := Hn).
Qed.

Lemma normalise_quat_unit (c : quat t) :
  moderate4 c = true ->
  regular4 (normalise_quat c) = true /\
  Rabs (norm2_R (normalise_quat c) - 1) <= / 10 ^ 14.
Proof.
  destruct c as [[[c0 c1] c2] c3]. unfold moderate4. intros H.
  apply andb_true_iff in H. destruct H as [H Hnz].
  apply andb_true_iff in H. destruct H as [H M3].
  apply andb_true_iff in H. destruct H as [H M2].
  apply andb_true_iff in H. destruct H as [M0 M1].
  apply negb_true_iff in Hnz.
  destruct (@norm2_moderate c0 c1 c2 c3 M0 M1 M2 M3) as [Pn Cn].
  set (S := mag c0 * mag c0 + mag c1 * mag c1 + mag c2 * mag c2 +
            mag c3 * mag c3) in *.
  assert (HS : 0 < S).
  { pose proof (mag_nonneg c0) as N0. pose proof (mag_nonneg c1) as N1.
    pose proof (mag_nonneg c2) as N2. pose proof (mag_nonneg c3) as N3.
    assert (Hsome : 0 < mag c0 \/ 0 < mag c1 \/ 0 < mag c2 \/ 0 < mag c3).
    { destruct (is_zero c0) eqn:Z0;
        [| left; apply moderate_mag_pos; assumption].
      destruct (is_zero c1) eqn:Z1;
        [| right; left; apply moderate_mag_pos; assumption].
      destruct (is_zero c2) eqn:Z2;
        [| right; right; left; apply moderate_mag_pos; assumption].
      destruct (is_zero c3) eqn:Z3;
        [discriminate Hnz
        | right; right; right; apply moderate_mag_pos; assumption]. }
    unfold S. destruct Hsome as [P | [P | [P | P]]]; nra. }
  rewrite normalise_quat_unfold.
  set (sigma := norm2 (c0, c1, c2, c3)) in *.
  assert (Hsig : 0 < mag sigma) by (apply (@close_pos 4 S (mag sigma)); [apply close_sym; exact Cn | exact HS]).
  destruct Pn as [Pz | [Nsig Ssig]]; [rewrite Pz in Hsig; simpl in Hsig; lra |].
  destruct (@sqrt_normal sigma (-852) 754 Nsig Ssig) as (Nt & St & Ct); try lia.
  set (t0 := SFsqrt prec emax sigma) in *.
  assert (Nt' : normal_in (-452) 352 t0)
    by (apply normal_in_weaken with (3 := Nt); vm_compute; discriminate).
  destruct (@inv_normal t0 (-452) 352 Nt' St) as (Nr & Sr & Cr); try lia.
  cbv zeta.
  set (rn := SFdiv prec emax one t0) in *.
  assert (Nr' : normal_in (-457) 349 rn)
    by (apply normal_in_weaken with (3 := Nr); lia).
  destruct (@scale_moderate c0 rn M0 Nr') as [G0 K0].
  destruct (@scale_moderate c1 rn M1 Nr') as [G1 K1].
  destruct (@scale_moderate c2 rn M2 Nr') as [G2 K2].
  destruct (@scale_moderate c3 rn M3 Nr') as [G3 K3].
  split; [unfold regular4; rewrite G0, G1, G2, G3; reflexivity |].
  clear G0 G1 G2 G3.
  unfold norm2_R. rewrite !B2R_sq.
  set (r0 := mag (SFmul prec emax c0 rn)) in *.
  set (r1 := mag (SFmul prec emax c1 rn)) in *.
  set (r2 := mag (SFmul prec emax c2 rn)) in *.
  set (r3 := mag (SFmul prec emax c3 rn)) in *.
  set (rho := mag rn) in *. set (tau := mag t0) in *.
  assert (Htau : 0 < tau) by (apply normal_in_mag_pos with (1 := Nt)).
  assert (Hsq : forall r a, close 1 r (a * rho) ->
                  close 2 (r * r) (a * rho * (a * rho))).
  { intros r a K. change 2%nat with (1 + 1)%nat. apply close_mul; assumption. }
  assert (Ksum : close 2 (r0 * r0 + r1 * r1 + r2 * r2 + r3 * r3)
                   (rho * rho * S)).
  { replace (rho * rho * S)
      with (mag c0 * rho * (mag c0 * rho) + mag c1 * rho * (mag c1 * rho) +
            mag c2 * rho * (mag c2 * rho) + mag c3 * rho * (mag c3 * rho))
      by (unfold S; ring).
    repeat apply close_add; apply Hsq; assumption. }
  assert (Krho : close 12 (rho * rho) (/ S)).
  { change 12%nat with (4 + (4 + 4))%nat.
    apply close_trans with (b := / tau * / tau).
    - change 4%nat with (2 + 2)%nat. apply close_mul; assumption.
    - rewrite <- Rinv_mult.
      apply close_trans with (b := / mag sigma).
      + apply close_inv; [apply Rmult_lt_0_compat; assumption | assumption].
      + apply close_inv; assumption. }
  assert (Kone : close 14 (r0 * r0 + r1 * r1 + r2 * r2 + r3 * r3) 1).
  { change 14%nat with (2 + (12 + 0))%nat.
    apply close_trans with (1 := Ksum).
    replace 1 with (/ S * S) by (field; lra).
    apply close_mul; [assumption | apply close_refl; lra]. }
  apply Rle_trans with (2 := grow_pow_14). apply close_one. exact Kone.
Qed.

Lemma update_steps (m : Mahony t) (c : call t) :
  update m c =
  (set_Quaternions m (normalise_quat (integrated m c)),
   normalise_quat (integrated m c)).
Proof.
  destruct c; cbn [update integrated];
    [rewrite Update6D_steps | rewrite Update9D_steps]; reflexivity.
Qed.

(** C2, on [float64]: when the quaternion a call of [Update6D] or
    [Update9D] has integrated has components that are zeros or normal
    numbers of magnitude in [2^-400, 2^400), not all of them zero, the
    array the call stores is made of finite numbers whose sum of squares,
    taken in the reals, is within 1e-14 of 1, and it is the array the call
    returns, in the order [q0, q1, q2, q3]. *)
Theorem unit_norm_b64 (m : Mahony t) (c : call t) :
  moderate4 (integrated m c) = true ->
  let '(m', r) := update m c in
  r = Quaternions m' /\
  regular4 (Quaternions m') = true /\
  Rabs (norm2_R (Quaternions m') - 1) <= / 10 ^ 14.
Proof.
  intros H. rewrite update_steps. split; [reflexivity |].
  cbn [Quaternions set_Quaternions]. apply normalise_quat_unit. exact H.
Qed.

Lemma unit_norm_b64_witness :
  let c := Call9D (dec 1 100) (dec (-2) 100) (dec 3 100)
             (dec 1 10) (dec 2 10) (dec 98 10)
             (dec 3 10) (dec (-1) 10) (dec 4 10) in
  moderate4 (integrated m_default c) = true /\
  let '(m', r) := update m_default c in
  r = Quaternions m' /\
  regular4 (Quaternions m') = true /\
  Rabs (norm2_R (Quaternions m') - 1) <= / 10 ^ 14.
Proof.
  intros c. split; [vm_compute; reflexivity |].
  apply (@unit_norm_b64 m_default c). vm_compute. reflexivity.
Defined.

End UnitNormB64.

(** * The test file on concrete data *)

Module OnTestData.

Import B64.
Import String.StringSyntax.
Local Open Scope string_scope.

Lemma drivers_ignore_third_axis_witness :
  let d := mkDataLine zero (zero, zero, one) (zero, zero, zero)
             (one, zero, zero) in
  let d' := mkDataLine one (zero, zero, two) (zero, zero, one)
              (one, zero, two) in
  TestAHRS_mahony m_default [d; d] = TestAHRS_mahony m_default [d'; d'] /\
  BenchmarkMahony m_default (@CSV_records t unit [d; d]) 3 =
  BenchmarkMahony m_default (@CSV_records t unit [d'; d']) 3.
Proof.
  cbv zeta. apply drivers_ignore_third_axis.
  repeat constructor.
Defined.

Lemma BenchmarkMahony_data_witness :
  let d := mkDataLine zero (zero, zero, one) (zero, zero, zero)
             (one, zero, zero) in
  BenchmarkMahony m_default (@CSV_records t unit [d]) 2 =
  @Bench_done t unit
    (run m_default (map (fun i => driver_call (cycled [d] d i)) (seq 0 2))).
Proof.
  cbv zeta.
  apply (proj2 (proj2 (BenchmarkMahony_data unit m_default 2))). discriminate.
Defined.

Lemma readCSV_rows_witness :
  let scan := fun _ : String.string =>
                mkDataLine zero (zero, zero, one) (zero, zero, zero)
                  (one, zero, zero) in
  readCSV scan
    (@FileBytes unit
       (String.append "time;ax"
          (String.String newline (terminated ["1;2"; ""; "3;4"]))))
  = CSV_records unit [scan "1;2"; scan "3;4"].
Proof.
  cbv zeta.
  apply (proj1 (@readCSV_rows t unit
                  (fun _ => mkDataLine zero (zero, zero, one)
                              (zero, zero, zero) (one, zero, zero))
                  "time;ax" ["1;2"; ""; "3;4"] eq_refl
                  ltac:(repeat constructor))).
Defined.

Lemma readCSV_edges_witness :
  let scan := fun _ : String.string =>
                mkDataLine zero (zero, zero, one) (zero, zero, zero)
                  (one, zero, zero) in
  readCSV scan (@FileBytes unit "time;ax;ay;az") = CSV_records unit [].
Proof.
  cbv zeta.
  apply (proj1 (proj2 (@readCSV_edges t unit
                         (fun _ => mkDataLine zero (zero, zero, one)
                                     (zero, zero, zero) (one, zero, zero))))).
  reflexivity.
Defined.

End OnTestData.
